(** * Human-in-the-loop tool-call reconciliation ([src/utils.ts])

    A shallow embedding of [processToolCalls] and of the asynchronous
    callback it maps over the parts of the last message, together with the
    properties of the reconciliation pass.

    Modelling conventions.
    - Objects are never assigned to by [processToolCalls]: every changed
      object is built afresh with a spread.  An object handed on by
      reference is therefore represented by its value.
    - [console.log] / [console.error] and the two debug helpers
      ([printToolDefinitions], [analyzeToolCallingMessages]) only write to
      the console and are left out.
    - [Promise.all (parts.map (async ...))] is modelled by its two phases:
      the synchronous prefix of every callback runs in part order during
      [map]; callbacks suspended at their [await] are resumed later, in the
      order given by a _schedule_ (the order in which the resolver promises
      settle).
    - [convertToCoreMessages] and the resolvers may throw: both are
      evaluated inside the [try] of lines 247-262.  A call of a resolver
      either throws before anything is returned or returns a promise.
      [formatDataStreamPart] and [dataStream.write] are taken to return
      normally.
    - [toolName in executions] and [executions[toolName]] look at the own
      properties of the object first and then at the properties it
      inherits through its prototype chain. *)

From Stdlib Require Import Ascii QArith.
From stdpp Require Import base option list strings gmap sorting pretty.

Local Set Warnings "-register-all".
Open Scope string_scope.
Open Scope list_scope.
Open Scope nat_scope.

(** ** JavaScript values *)

(** Payloads ([args], [result], resolver return values) are JSON-like
    values.  Numbers are restricted to integers; they only occur as opaque
    payload. *)
Inductive value :=
| VUndefined
| VNull
| VBool (b : bool)
| VNumber (n : Z)
| VString (s : string)
| VArray (items : list value)
| VObject (fields : list (string * value)).

(** [v === s] for a primitive string [s]. *)
Definition strict_equals_string (v : value) (s : string) : bool :=
  match v with
  | VString t => bool_decide (t = s)
  | _ => false
  end.

(** Thrown values: [Error] instances (with their [name] and [message]) and
    thrown strings. *)
Inductive exn :=
| JsError (name message : string)
| JsThrownString (s : string).

(** [`${error}`]: string conversion of a thrown value
    ([Error.prototype.toString] for error objects). *)
Definition exn_to_string (e : exn) : string :=
  match e with
  | JsError name message =>
      if bool_decide (name = "") then message
      else if bool_decide (message = "") then name
      else name +:+ ": " +:+ message
  | JsThrownString s => s
  end.

(** How a promise ends up. *)
Inductive settlement :=
| fulfilled (v : value)
| rejected (e : exn).

(** ** Messages and parts ([@ai-sdk/ui-utils]) *)

Record ToolCall := {
  toolCallId : string;
  toolName : string;
  args : value;
}.

(** A tool invocation is a union discriminated by [state]; only the
    ['result'] variant carries a [result]. *)
Inductive ToolInvocation :=
| partial_call (step : option Z) (c : ToolCall)
| call (step : option Z) (c : ToolCall)
| result (step : option Z) (c : ToolCall) (r : value).

Inductive invocation_state := state_partial_call | state_call | state_result.

Definition ti_state (ti : ToolInvocation) : invocation_state :=
  match ti with
  | partial_call _ _ => state_partial_call
  | call _ _ => state_call
  | result _ _ _ => state_result
  end.

Definition ti_call (ti : ToolInvocation) : ToolCall :=
  match ti with
  | partial_call _ c | call _ c | result _ c _ => c
  end.

Definition is_result_state (s : invocation_state) : bool :=
  match s with state_result => true | _ => false end.

(** The kinds of part other than ['tool-invocation']. *)
Inductive other_type := text | reasoning | source | file | step_start.

Inductive UIPart :=
| ToolInvocationUIPart (toolInvocation : ToolInvocation)
| OtherUIPart (type : other_type) (body : value).

Inductive Role := system | user | assistant | data.

Record Message := {
  id : string;
  createdAt : option Z;
  content : string;
  role : Role;
  parts : option (list UIPart);
  (** the remaining properties ([annotations], [toolInvocations], ...) *)
  others : list (string * value);
}.

(** [{ ...lastMessage, parts: processedParts }] *)
Definition with_parts (m : Message) (ps : list UIPart) : Message :=
  {| id := id m; createdAt := createdAt m; content := content m;
     role := role m; parts := Some ps; others := others m |}.

(** ** The output data stream *)

(** [formatDataStreamPart("tool_result", { toolCallId, result })] *)
Record DataStreamPart := tool_result {
  tr_toolCallId : string;
  tr_result : value;
}.

(** ** Decision sentinels ([./shared]) *)

(** The module [./shared] that exports [APPROVAL] is not among the sources.
    Its two string constants, one for "approved" and one for "denied", are
    taken as a parameter. *)
Record APPROVAL_t := {
  YES : string;
  NO : string;
}.

(** * The tools ([src/tools.ts]) *)

(** ** Property access and conversions on values *)

(** A [VObject] lists the own properties of an object, each key once.
    Strings hold the UTF-8 encoding of the JavaScript string. *)
Fixpoint own_property (fields : list (string * value)) (key : string)
  : option value :=
  match fields with
  | [] => None
  | (k, v) :: fields =>
      if decide (k = key) then Some v else own_property fields key
  end.

(** [obj.key = v] for a key the object already has. *)
Fixpoint set_property (fields : list (string * value)) (key : string)
  (v : value) : list (string * value) :=
  match fields with
  | [] => []
  | (k, w) :: fields =>
      if decide (k = key) then (k, v) :: fields
      else (k, w) :: set_property fields key v
  end.

(** [key in v], for a key that no prototype defines. *)
Definition has_property (v : value) (key : string) : bool :=
  match v with
  | VObject fields => bool_decide (is_Some (own_property fields key))
  | _ => false
  end.

Definition TypeError (message : string) : exn := JsError "TypeError" message.

(** Computations that may throw: the first exception ends them. *)
Definition throwing (A : Type) : Type := exn + A.

#[global] Instance throwing_bind : MBind throwing :=
  λ A B f x,
    match x with
    | inl e => inl e
    | inr a => f a
    end.

(** [v.key], for a key that no prototype defines: [undefined] when the
    property is absent; reading a property of [null] or [undefined]
    throws, with a message that names the property. *)
Definition read_property (v : value) (key : string) : exn + value :=
  match v with
  | VUndefined =>
      inl (TypeError
             ("Cannot read properties of undefined (reading '" +:+ key +:+ "')"))
  | VNull =>
      inl (TypeError
             ("Cannot read properties of null (reading '" +:+ key +:+ "')"))
  | VObject fields => inr (default VUndefined (own_property fields key))
  | _ => inr VUndefined
  end.

(** The values that count as true in a condition. *)
Definition truthy (v : value) : bool :=
  match v with
  | VUndefined | VNull | VBool false | VNumber 0 | VString "" => false
  | _ => true
  end.

(** [typeof v === "object"] *)
Definition typeof_object (v : value) : bool :=
  match v with
  | VNull | VArray _ | VObject _ => true
  | _ => false
  end.

(** [s.startsWith("(")] and [s.endsWith(")")] *)
Definition startsWith_paren (s : string) : bool :=
  match s with
  | String "("%char _ => true
  | _ => false
  end.

Fixpoint endsWith_paren (s : string) : bool :=
  match s with
  | "" => false
  | String a "" => bool_decide (a = ")"%char)
  | String _ rest => endsWith_paren rest
  end.

(** The line feed and the double quote. *)
Definition LF : string := String (ascii_of_nat 10) "".
Definition DQUOTE : string := String (ascii_of_nat 34) "".

(** [a || b] on strings read from the environment. *)
Definition or_default (a : option string) (b : string) : string :=
  match a with
  | Some s => if bool_decide (s = "") then b else s
  | None => b
  end.

Section conversions.

(** [Number.prototype.toString] is taken as a parameter. *)
Context (Number_toString : Z → string).

(** [`${v}`].  A plain object converts to ["[object Object]"] unless it has
    an own property [toString], which (being no function) makes the
    conversion throw; an array converts to its elements joined by [","],
    [null] and [undefined] elements giving the empty string. *)
Fixpoint ToString (v : value) : exn + string :=
  match v with
  | VUndefined => inr "undefined"
  | VNull => inr "null"
  | VBool b => inr (if b then "true" else "false")
  | VNumber n => inr (Number_toString n)
  | VString s => inr s
  | VArray items =>
      (fix join (items : list value) : exn + string :=
         let element (x : value) : exn + string :=
           match x with
           | VUndefined | VNull => inr ""
           | _ => ToString x
           end in
         match items with
         | [] => inr ""
         | [x] => element x
         | x :: rest =>
             match element x with
             | inl e => inl e
             | inr sx =>
                 match join rest with
                 | inl e => inl e
                 | inr sr => inr (sx +:+ "," +:+ sr)
                 end
             end
         end) items
  | VObject fields =>
      if bool_decide (is_Some (own_property fields "toString"))
      then inl (TypeError "Cannot convert object to primitive value")
      else inr "[object Object]"
  end.

(** ** [executions.getWeatherInformation] (lines 495-500) *)

Definition weather_report (city : string) : string :=
  "The weather in " +:+ city +:+
  " is sunny with a temperature of 72°F (22°C). Humidity is at 45% with a light breeze from the southwest at 5 mph.".

(** [async ({ city }) => ...]: destructuring [null] or [undefined] throws,
    which rejects the promise; so does a [city] that cannot be converted
    to a string. *)
Definition getWeatherInformation_execute (args : value) : settlement :=
  match args with
  | VUndefined =>
      rejected
        (TypeError
           "Cannot destructure property 'city' of 'undefined' as it is undefined.")
  | VNull =>
      rejected
        (TypeError
           "Cannot destructure property 'city' of 'object null' as it is null.")
  | _ =>
      match read_property args "city" with
      | inl e => rejected e
      | inr city =>
          match ToString city with
          | inl e => rejected e
          | inr city => fulfilled (VString (weather_report city))
          end
      end
  end.

End conversions.

(** ** HTTP *)

Record fetch_request := {
  req_url : string;
  req_method : string;
  req_headers : list (string * string);
  req_body : option string;
  req_redirect : option string;
}.

(** A response, with what reading its body as JSON gives. *)
Record fetch_response := {
  ok : bool;
  status : Z;
  statusText : string;
  response_json : exn + value;
}.

(** What a tool leaves behind: how its promise settles and the requests it
    sent. *)
Record tool_run := {
  settled : settlement;
  requests : list fetch_request;
}.

(** ** [addCloudflareCustomRule.execute] (lines 382-471) *)

Record cloudflare_env := {
  CLOUDFLARE_API_TOKEN : option string;
  CLOUDFLARE_ZONE_ID : option string;
  CLOUDFLARE_RULESET_ID : option string;
}.

Section addCloudflareCustomRule.

(** [JSON.parse], [JSON.stringify], [String.prototype.trim], the regular
    expression replacement of lines 406-412 that escapes inner quotes, and
    [fetch] are taken as parameters. *)
Context (JSON_parse : string → exn + value).
Context (JSON_stringify : value → string).
Context (trim : string → string).
Context (escape_inner_quotes : string → string).
Context (fetch : fetch_request → exn + fetch_response).

(** Lines 390-421: a string is parsed, a second time after repair if need
    be; [inl] is the message returned when both attempts fail. *)
Definition parse_rule (rule : value) : string + value :=
  match rule with
  | VString str =>
      match JSON_parse str with
      | inr parsed => inr parsed
      | inl _ =>
          match JSON_parse (escape_inner_quotes str) with
          | inr parsed => inr parsed
          | inl _ =>
              inl "Invalid rule format: could not parse string as JSON, even after attempting to fix escaping."
          end
      end
  | _ => inr rule
  end.

(** Lines 423-435: [{ type: "object", value: ... }] is unwrapped. *)
Definition unwrap_rule (rule : value) : value :=
  if truthy rule && typeof_object rule && has_property rule "type"
     && match read_property rule "type" with
        | inr (VString "object") => true
        | _ => false
        end
     && has_property rule "value"
  then
    match read_property rule "value" with
    | inr v => v
    | inl _ => rule
    end
  else rule.

(** [v.trim()] for a [v] that is no string: reading [trim] of [null] or
    [undefined] throws; on any other value the property is [undefined],
    which cannot be called. *)
Definition trim_error (v : value) : exn :=
  match read_property v "trim" with
  | inl error => error
  | inr _ => TypeError "rule.expression.trim is not a function"
  end.

(** Lines 438-443: the expression is put in parentheses unless, trimmed, it
    starts with one and ends with one.  Calling [trim] on anything but a
    string throws. *)
Definition wrap_expression (rule : value) : exn + value :=
  if truthy rule && typeof_object rule && has_property rule "expression"
  then
    match rule with
    | VObject fields =>
        match own_property fields "expression" with
        | Some (VString expression) =>
            let expr := trim expression in
            if negb (startsWith_paren expr && endsWith_paren expr)
            then inr (VObject
                        (set_property fields "expression"
                           (VString ("(" +:+ expr +:+ ")"))))
            else inr rule
        | Some v => inl (trim_error v)
        | None => inl (trim_error VUndefined)
        end
    | _ => inr rule
    end
  else inr rule.

Definition cloudflare_request (env : cloudflare_env) (apiToken : string)
  (rule : value) : fetch_request :=
  {| req_url :=
       "https://api.cloudflare.com/client/v4/zones/"
       +:+ or_default (CLOUDFLARE_ZONE_ID env)
             "a37b5b3eca17274d2ca0cbc97a950636"
       +:+ "/rulesets/"
       +:+ or_default (CLOUDFLARE_RULESET_ID env)
             "f252f8e1e67e42db970584d5e67b9c59"
       +:+ "/rules";
     req_method := "POST";
     req_headers :=
       [("Content-Type", "application/json");
        ("Authorization", "Bearer " +:+ apiToken)];
     req_body := Some (JSON_stringify rule);
     req_redirect := Some "follow" |}.

(** Lines 455-470: the request and the reading of the answer; whatever is
    thrown there is caught and reported. *)
Definition cloudflare_answer (response : exn + fetch_response) : value :=
  let caught (error : exn) :=
    VString ("Error adding Cloudflare custom rule: " +:+ exn_to_string error) in
  match response with
  | inl error => caught error
  | inr response =>
      match response_json response with
      | inl error => caught error
      | inr body =>
          if negb (ok response) then
            match read_property body "errors" with
            | inl error => caught error
            | inr errors =>
                VString
                  ("Error from Cloudflare API: "
                   +:+ (if truthy errors then JSON_stringify errors
                        else statusText response))
            end
          else body
      end
  end.

Definition addCloudflareCustomRule_execute (env : cloudflare_env)
  (rule : value) : tool_run :=
  match parse_rule rule with
  | inl message =>
      {| settled := fulfilled (VString message); requests := [] |}
  | inr rule =>
      match wrap_expression (unwrap_rule rule) with
      | inl error => {| settled := rejected error; requests := [] |}
      | inr rule =>
          match CLOUDFLARE_API_TOKEN env with
          | None | Some "" =>
              {| settled :=
                   fulfilled
                     (VString
                        "CLOUDFLARE_API_TOKEN is not set in environment variables.");
                 requests := [] |}
          | Some apiToken =>
              let request := cloudflare_request env apiToken rule in
              {| settled := fulfilled (cloudflare_answer (fetch request));
                 requests := [request] |}
          end
      end
  end.

End addCloudflareCustomRule.

(** ** [generateImage.execute] (lines 68-167) *)

(** A JavaScript number, as far as [Math.min], [Math.max] and truthiness
    see it: a finite number is given by its exact (rational) value. *)
Inductive number :=
| NaN
| NegInfinity
| PosInfinity
| Finite (q : Q).

(** The [steps] argument: the schema yields a number, the code also
    provides for a string and for a missing value. *)
Inductive steps_arg :=
| steps_undefined
| steps_string (s : string)
| steps_number (n : number).

Definition number_falsy (n : number) : bool :=
  match n with
  | NaN => true
  | Finite q => Qeq_bool q 0
  | _ => false
  end.

Definition Math_max (a b : number) : number :=
  match a, b with
  | NaN, _ | _, NaN => NaN
  | PosInfinity, _ | _, PosInfinity => PosInfinity
  | NegInfinity, x | x, NegInfinity => x
  | Finite p, Finite q => if Qle_bool p q then b else a
  end.

Definition Math_min (a b : number) : number :=
  match a, b with
  | NaN, _ | _, NaN => NaN
  | NegInfinity, _ | _, NegInfinity => NegInfinity
  | PosInfinity, x | x, PosInfinity => x
  | Finite p, Finite q => if Qle_bool p q then a else b
  end.

(** The call of the AI binding and the write to the bucket. *)
Record ai_call := {
  ai_model : string;
  ai_prompt : string;
  ai_steps : number;
  gateway_id : string;
  gateway_skipCache : bool;
  gateway_cacheTtl : Z;
  gateway_metadata : list (string * value);
}.

Record bucket_put := {
  put_key : string;
  put_bytes : list N;
  put_contentType : string;
  put_cacheControl : string;
}.

(** The bindings of the agent: [env.AI.run], giving the [image] of the
    response if there is one, and [env.PUBLIC_BUCKET.put]. *)
Record agent_env := {
  AI_run : ai_call → exn + option string;
  PUBLIC_BUCKET_put : bucket_put → exn + unit;
}.

Record image_run := {
  image_answer : string;
  ai_calls : list ai_call;
  bucket_puts : list bucket_put;
}.

Section generateImage.

(** [parseInt(_, 10)] and [atob] are taken as parameters. *)
Context (parseInt10 : string → number).
Context (atob : string → exn + list N).

(** Lines 71-73. *)
Definition validSteps (steps : steps_arg) : number :=
  let numSteps :=
    match steps with
    | steps_string s => parseInt10 s
    | steps_number n => if number_falsy n then Finite 4 else n
    | steps_undefined => Finite 4
    end in
  Math_min (Math_max numSteps (Finite 1)) (Finite 8).

Definition image_failed (error : exn) : string :=
  "Failed to generate image. Error: " +:+ exn_to_string error.

Definition image_key (now : Z) (randomString : string) : string :=
  "ai-generated/" +:+ pretty now +:+ "-" +:+ randomString +:+ ".jpg".

Definition image_success (prompt key : string) : string :=
  "I've generated an image based on your prompt " +:+ DQUOTE +:+ prompt
  +:+ DQUOTE +:+ ". View it here: " +:+ "https://r2.zxc.co.in/" +:+ key.

(** [agent] is what [getCurrentAgent] finds, [now] is [Date.now()] and
    [randomString] is [Math.random().toString(36).substring(2, 8)]. *)
Definition generateImage_execute (agent : option agent_env) (now : Z)
  (randomString : string) (prompt : string) (steps : steps_arg) : image_run :=
  match agent with
  | None =>
      {| image_answer := image_failed (JsError "Error" "No agent found");
         ai_calls := []; bucket_puts := [] |}
  | Some agent =>
      let request :=
        {| ai_model := "@cf/black-forest-labs/flux-1-schnell";
           ai_prompt := prompt; ai_steps := validSteps steps;
           gateway_id := "agents"; gateway_skipCache := false;
           gateway_cacheTtl := 3360;
           gateway_metadata :=
             [("application", VString "openai-wrapper");
              ("user", VString "aj"); ("dev", VBool true)] |} in
      match AI_run agent request with
      | inl error =>
          {| image_answer := image_failed error;
             ai_calls := [request]; bucket_puts := [] |}
      | inr None | inr (Some "") =>
          {| image_answer :=
               image_failed (JsError "Error" "No image generated in response");
             ai_calls := [request]; bucket_puts := [] |}
      | inr (Some base64Data) =>
          match atob base64Data with
          | inl error =>
              {| image_answer := image_failed error;
                 ai_calls := [request]; bucket_puts := [] |}
          | inr bytes =>
              let key := image_key now randomString in
              let put :=
                {| put_key := key; put_bytes := bytes;
                   put_contentType := "image/jpeg";
                   put_cacheControl := "public, max-age=31536000" |} in
              match PUBLIC_BUCKET_put agent put with
              | inl error =>
                  {| image_answer := image_failed error;
                     ai_calls := [request]; bucket_puts := [put] |}
              | inr _ =>
                  {| image_answer := image_success prompt key;
                     ai_calls := [request]; bucket_puts := [put] |}
              end
          end
      end
  end.

End generateImage.

(** ** [searchPokemon.execute] (lines 181-206) *)

Section searchPokemon.

Context (Number_toString : Z → string).
Context (encodeURIComponent : string → exn + string).
Context (fetch : fetch_request → exn + fetch_response).

(** [items.join(separator)] *)
Fixpoint join_values (separator : string) (items : list value)
  : exn + string :=
  let element (x : value) : exn + string :=
    match x with
    | VUndefined | VNull => inr ""
    | _ => ToString Number_toString x
    end in
  match items with
  | [] => inr ""
  | [x] => element x
  | x :: rest =>
      match element x with
      | inl e => inl e
      | inr sx =>
          match join_values separator rest with
          | inl e => inl e
          | inr sr => inr (sx +:+ separator +:+ sr)
          end
      end
  end.

(** [items.map((t) => t[key].name)] *)
Fixpoint map_names (key : string) (items : list value) : exn + list value :=
  match items with
  | [] => inr []
  | t :: rest =>
      match read_property t key with
      | inl e => inl e
      | inr inner =>
          match read_property inner "name" with
          | inl e => inl e
          | inr name =>
              match map_names key rest with
              | inl e => inl e
              | inr names => inr (name :: names)
              end
          end
      end
  end.

(** [list?.map((t) => t[key].name).join(", ") || "N/A"] *)
Definition names_line (key : string) (list : value) : exn + string :=
  match list with
  | VUndefined | VNull => inr "N/A"
  | VArray items =>
      match map_names key items with
      | inl e => inl e
      | inr names =>
          match join_values ", " names with
          | inl e => inl e
          | inr "" => inr "N/A"
          | inr joined => inr joined
          end
      end
  | _ => inl (TypeError "map is not a function")
  end.

(** Lines 189-202: the summary of the parsed answer. *)
Definition pokemon_summary (body : value) : throwing string :=
  name ← read_property body "name";
  ident ← read_property body "id";
  height ← read_property body "height";
  weight ← read_property body "weight";
  types_value ← read_property body "types";
  types ← names_line "type" types_value;
  abilities_value ← read_property body "abilities";
  abilities ← names_line "ability" abilities_value;
  sprites ← read_property body "sprites";
  sprite ←
    match sprites with
    | VUndefined | VNull => inr VUndefined
    | _ => read_property sprites "front_default"
    end;
  name ← ToString Number_toString name;
  ident ← ToString Number_toString ident;
  height ← ToString Number_toString height;
  weight ← ToString Number_toString weight;
  let summary :=
    "Pokémon: " +:+ name +:+ " (ID: " +:+ ident +:+ ")" +:+ LF
    +:+ "Height: " +:+ height +:+ LF
    +:+ "Weight: " +:+ weight +:+ LF
    +:+ "Types: " +:+ types +:+ LF
    +:+ "Abilities: " +:+ abilities in
  if truthy sprite then
    sprite ← ToString Number_toString sprite;
    inr (summary +:+ LF +:+ "Sprite: " +:+ sprite)
  else inr summary.

Definition searchPokemon_execute (nameOrId : string) : tool_run :=
  let caught (error : exn) :=
    fulfilled
      (VString ("Error fetching Pokémon details: " +:+ exn_to_string error)) in
  match encodeURIComponent nameOrId with
  | inl error => {| settled := caught error; requests := [] |}
  | inr encoded =>
      let request :=
        {| req_url := "https://pokeapi.co/api/v2/pokemon/" +:+ encoded;
           req_method := "GET"; req_headers := []; req_body := None;
           req_redirect := None |} in
      {| settled :=
           match fetch request with
           | inl error => caught error
           | inr res =>
               if negb (ok res) then
                 fulfilled
                   (VString
                      ("No Pokémon found for '" +:+ nameOrId
                       +:+ "'. (Status: " +:+ Number_toString (status res)
                       +:+ ")"))
               else
                 match response_json res with
                 | inl error => caught error
                 | inr body =>
                     match pokemon_summary body with
                     | inl error => caught error
                     | inr summary => fulfilled (VString summary)
                     end
                 end
           end;
         requests := [request] |}
  end.

End searchPokemon.

(** * The agent ([server.ts]) *)

Definition is_user (m : Message) : bool :=
  match role m with
  | user => true
  | _ => false
  end.

(** [this.messages.filter((m) => m.role === "user").pop()] *)
Definition lastUserMessage (messages : list Message) : option Message :=
  last (filter (λ m, is_user m = true) messages).

(** [executeTask]: the transcript handed to [saveMessages]; [newId] is
    [generateId()] and [now] is [new Date()]. *)
Definition executeTask (messages : list Message) (newId : string) (now : Z)
  (description : string) : list Message :=
  messages
  ++ [ {| id := newId; createdAt := Some now;
          content := "Running scheduled task: " +:+ description;
          role := user; parts := None; others := [] |} ].

(** * [analyzeToolCallingMessages] ([src/utils.ts], lines 49-138) *)

(** [content.includes(term)] *)
Fixpoint starts_with (term content : string) : bool :=
  match term, content with
  | "", _ => true
  | String a term, String b content =>
      bool_decide (a = b) && starts_with term content
  | String _ _, "" => false
  end.

Fixpoint includes (content term : string) : bool :=
  starts_with term content
  || match content with
     | "" => false
     | String _ content => includes content term
     end.

(** What the function prints, line by line. *)
Inductive console_line :=
| line_analyzing
| line_last_user_message (content : string)
| line_potential (tool : string) (found : bool)
| line_image_pattern
| line_image_subject (subject : string).

Section analyzeToolCallingMessages.

(** [String.prototype.toLowerCase], [trim] and the replacement that
    removes the words of an image request are taken as parameters. *)
Context (toLowerCase : string → string).
Context (remove_image_words : string → string).
Context (trim : string → string).

Definition weatherTerms : list string :=
  ["weather"; "temperature"; "rainy"; "sunny"; "forecast"].
Definition timeTerms : list string :=
  ["time"; "hour"; "clock"; "current time"].
Definition scheduleTerms : list string :=
  ["schedule"; "reminder"; "set up"; "appointment"; "meeting"].
Definition imageTerms : list string :=
  ["image"; "picture"; "photo"; "draw"; "create"; "generate"; "make a";
   "create a"; "visualize"; "render"].
Definition doWorkerTerms : list string :=
  ["do worker"; "call worker"; "call do-worker"; "service binding";
   "test worker"; "hello world from worker"].

(** Lines 56-133: the lines printed for the user message found. *)
Definition analyze_user_message (message : Message) : list console_line :=
  let lowered := toLowerCase (content message) in
  let potential (terms : list string) :=
    existsb (λ term, includes lowered term) terms in
  let potentialImage := potential imageTerms in
  [ line_last_user_message (content message);
    line_potential "weather" (potential weatherTerms);
    line_potential "time" (potential timeTerms);
    line_potential "schedule" (potential scheduleTerms);
    line_potential "image generation" potentialImage;
    line_potential "do-worker" (potential doWorkerTerms) ]
  ++ (if potentialImage then
        line_image_pattern
        :: (let subjects := trim (remove_image_words lowered) in
            if bool_decide (subjects = "") then []
            else [line_image_subject subjects])
      else []).

(** The loop of lines 53-137, from index [n - 1] down to [0], left at the
    first user message. *)
Fixpoint analyze_from (messages : list Message) (n : nat)
  : list console_line :=
  match n with
  | 0 => []
  | S i =>
      match messages !! i with
      | Some message =>
          if is_user message then analyze_user_message message
          else analyze_from messages i
      | None => []
      end
  end.

Definition analyzeToolCallingMessages (messages : list Message)
  : list console_line :=
  line_analyzing :: analyze_from messages (length messages).

End analyzeToolCallingMessages.

Section reconciliation.

Context (APPROVAL : APPROVAL_t).

(** [convertToCoreMessages] belongs to the [ai] package; it is taken as a
    parameter: a function from the transcript to the core messages that may
    throw (the package's function throws on a transcript that holds a tool
    invocation without a result). *)
Context {CoreMessage : Type}.
Context (convertToCoreMessages : list Message → exn + list CoreMessage).

Record ToolExecutionOptions := {
  ctx_messages : list CoreMessage;
  ctx_toolCallId : string;
}.

(** What calling a function comes to: it throws, or it returns a promise,
    given here by the way that promise settles.  A function that returns a
    value which is no promise counts as one that returns a promise fulfilled
    with that value: [await] treats both alike. *)
Inductive call_outcome :=
| thrown (e : exn)
| promised (promise : settlement).

(** A resolver function, called with the arguments and the context. *)
Definition resolver : Type := value → ToolExecutionOptions → call_outcome.

(** The value of a property of [executions]: a function, or a value that
    cannot be called, of which only the truthiness matters ([undefined] for
    an optional property that is set to nothing). *)
Inductive property_value :=
| callable (f : resolver)
| not_callable (is_truthy : bool).

(** The [executions] object: its own properties, and the properties it
    inherits through its prototype chain. *)
Record executions_object := {
  own_properties : gmap string property_value;
  inherited_properties : gmap string property_value;
}.

Abbreviation executions_t := executions_object.

(** The property [key] as [in] and [obj[key]] find it: an own property
    hides an inherited one. *)
Global Instance executions_lookup
  : Lookup string property_value executions_object :=
  λ key obj,
    match own_properties obj !! key with
    | Some v => Some v
    | None => inherited_properties obj !! key
    end.

(** [key in obj] *)
Definition isValidToolName (key : string) (obj : executions_t) : bool :=
  bool_decide (is_Some (obj !! key)).

(** [obj[key]]; a missing property reads as [undefined] *)
Definition get_property (obj : executions_t) (key : string) : property_value :=
  default (not_callable false) (obj !! key).

(** The properties of [Object.prototype], which every object written as a
    literal inherits: eleven functions and the accessor [__proto__], whose
    value is the prototype itself, an object.  What each function does when
    it is called as a resolver (without a receiver) is taken as a
    parameter. *)
Definition Object_prototype_functions : list string :=
  [ "constructor"; "hasOwnProperty"; "isPrototypeOf"; "propertyIsEnumerable";
    "toLocaleString"; "toString"; "valueOf"; "__defineGetter__";
    "__defineSetter__"; "__lookupGetter__"; "__lookupSetter__" ].

Definition Object_prototype (builtin : string → resolver)
  : gmap string property_value :=
  <["__proto__" := not_callable true]>
    (list_to_map ((λ name, (name, callable (builtin name)))
                  <$> Object_prototype_functions)).

(** [const executions = { getWeatherInformation: async ({ city }) => ... }]
    ([src/tools.ts], lines 494-501). *)
Definition tools_executions (Number_toString : Z → string)
  (builtin : string → resolver) : executions_t :=
  {| own_properties :=
       {[ "getWeatherInformation" :=
            callable
              (λ args _,
                 promised (getWeatherInformation_execute Number_toString args)) ]};
     inherited_properties := Object_prototype builtin |}.

(** One resolver call, as seen by the outside world. *)
Record invocation := {
  inv_toolName : string;
  inv_args : value;
  inv_options : ToolExecutionOptions;
}.

(** ** The callback of [parts.map] *)

(** An [async] callback either runs to its [return] without suspending,
    having made the calls [made] and written [written] to the data stream,
    or it has called a resolver and is suspended at [await] on the returned
    promise; [k] is the rest of the function body. *)
Inductive coroutine :=
| Returned (made : list invocation) (written : list DataStreamPart)
    (p : UIPart)
| Suspended (inv : invocation) (promise : settlement)
    (k : settlement → list DataStreamPart * UIPart).

(** Lines 282-300: forward the result to the client and return the updated
    part. *)
Definition forward (step : option Z) (c : ToolCall) (res : value)
  : list DataStreamPart * UIPart :=
  ([tool_result (toolCallId c) res],
   ToolInvocationUIPart (result step c res)).

(** Lines 256-262: what the [catch] makes of the thrown value. *)
Definition caught (error : exn) : value :=
  VString ("Error executing tool: " +:+ exn_to_string error).

(** Lines 247-262: the [try]/[catch] around the awaited promise. *)
Definition try_result (s : settlement) : value :=
  match s with
  | fulfilled v => v
  | rejected error => caught error
  end.

(** Calling a value that is not a function. *)
Definition TypeError_toolInstance : exn :=
  TypeError "toolInstance is not a function".

(** The context handed to the resolver for the call [c]. *)
Definition options_for (core : list CoreMessage) (c : ToolCall)
  : ToolExecutionOptions :=
  {| ctx_messages := core; ctx_toolCallId := toolCallId c |}.

Definition callback (messages : list Message) (executions : executions_t)
  (part : UIPart) : coroutine :=
  match part with
  | OtherUIPart _ _ => Returned [] [] part
  | ToolInvocationUIPart toolInvocation =>
      let toolName := toolName (ti_call toolInvocation) in
      if negb (isValidToolName toolName executions)
         || negb (is_result_state (ti_state toolInvocation))
      then Returned [] [] part
      else
        match toolInvocation with
        | result step c r =>
            (* narrowed to the 'result' variant; [r] is
               [toolInvocation.result] *)
            if strict_equals_string r (YES APPROVAL) then
              if negb (isValidToolName toolName executions)
                 || negb (is_result_state (ti_state toolInvocation))
              then Returned [] [] part
              else
                let toolInstance := get_property executions toolName in
                match toolInstance with
                | not_callable false =>
                    let (w, p) :=
                      forward step c
                        (VString "Error: No execute function found on tool") in
                    Returned [] w p
                | _ =>
                    (* inside [try]: the arguments of the call are evaluated
                       first, then the call is made *)
                    match convertToCoreMessages messages with
                    | inl error =>
                        let (w, p) := forward step c (caught error) in
                        Returned [] w p
                    | inr core =>
                        let options := options_for core c in
                        match toolInstance with
                        | callable f =>
                            let inv :=
                              {| inv_toolName := toolName; inv_args := args c;
                                 inv_options := options |} in
                            match f (args c) options with
                            | thrown error =>
                                let (w, p) := forward step c (caught error) in
                                Returned [inv] w p
                            | promised promise =>
                                Suspended inv promise
                                  (λ s, forward step c (try_result s))
                            end
                        | not_callable _ =>
                            let (w, p) :=
                              forward step c (caught TypeError_toolInstance) in
                            Returned [] w p
                        end
                    end
                end
            else if strict_equals_string r (NO APPROVAL) then
              let (w, p) :=
                forward step c
                  (VString "Error: User denied access to tool execution") in
              Returned [] w p
            else Returned [] [] part
        | _ => Returned [] [] part
        end
  end.

(** ** [Promise.all] over the mapped callbacks *)

Inductive task :=
| Settled (p : UIPart)
| Waiting (promise : settlement) (k : settlement → list DataStreamPart * UIPart).

(** The state of a pass: one task per part, the resolver calls made so far
    and the parts written to the data stream so far.  Calls and writes are
    tagged with the index of the part whose callback made them; the tag is
    bookkeeping only and not part of what is sent. *)
Record pool := {
  tasks : list task;
  calls : list (nat * invocation);
  written : list (nat * DataStreamPart);
}.

Definition task_of (c : coroutine) : task :=
  match c with
  | Returned _ _ p => Settled p
  | Suspended _ promise k => Waiting promise k
  end.

(** The resolver calls and the writes of the synchronous prefix. *)
Definition sync_calls (c : coroutine) : list invocation :=
  match c with
  | Returned made _ _ => made
  | Suspended inv _ _ => [inv]
  end.

Definition sync_writes (c : coroutine) : list DataStreamPart :=
  match c with
  | Returned _ w _ => w
  | Suspended _ _ _ => []
  end.

Definition tag {E : Type} (i : nat) (l : list E) : list (nat * E) :=
  (λ d, (i, d)) <$> l.

(** [parts.map(async ...)]: every callback runs, in order, up to its first
    suspension. *)
Definition spawn_all (cs : list coroutine) : pool :=
  {| tasks := task_of <$> cs;
     calls := concat (imap (λ i c, tag i (sync_calls c)) cs);
     written := concat (imap (λ i c, tag i (sync_writes c)) cs) |}.

(** The promise awaited by task [i] settles: its callback resumes and runs
    to its [return].  A promise settles once; nothing happens for a task
    that is not waiting. *)
Definition settle (pl : pool) (i : nat) : pool :=
  match tasks pl !! i with
  | Some (Waiting promise k) =>
      let (w, p) := k promise in
      {| tasks := <[i := Settled p]> (tasks pl);
         calls := calls pl;
         written := written pl ++ tag i w |}
  | _ => pl
  end.

Definition run_schedule (schedule : list nat) (pl : pool) : pool :=
  foldl settle pl schedule.

(** [Promise.all]: fulfilled, with the values in input order, once every
    task has settled. *)
Definition promise_all (ts : list task) : option (list UIPart) :=
  mapM (λ t, match t with Settled p => Some p | Waiting _ _ => None end) ts.

(** ** [processToolCalls] *)

Inductive completion (A : Type) :=
| Fulfilled (a : A)
| Rejected (e : exn)
| Pending.
Global Arguments Fulfilled {A} a.
Global Arguments Rejected {A} e.
Global Arguments Pending {A}.

(** What a pass leaves behind: how the returned promise completes, the data
    stream, and the tagged calls and writes. *)
Record run := {
  completed : completion (list Message);
  dataStream_after : list DataStreamPart;
  run_calls : list (nat * invocation);
  run_written : list (nat * DataStreamPart);
}.

(** Reading [.parts] of [undefined]. *)
Definition TypeError_parts : exn :=
  JsError "TypeError" "Cannot read properties of undefined (reading 'parts')".

(** [messages.slice(0, -1)] *)
Definition slice_0_m1 (messages : list Message) : list Message :=
  take (length messages - 1) messages.

Definition processToolCalls (dataStream : list DataStreamPart)
  (messages : list Message) (executions : executions_t)
  (schedule : list nat) : run :=
  match last messages with
  | None =>
      {| completed := Rejected TypeError_parts; dataStream_after := dataStream;
         run_calls := []; run_written := [] |}
  | Some lastMessage =>
      match parts lastMessage with
      | None =>
          {| completed := Fulfilled messages; dataStream_after := dataStream;
             run_calls := []; run_written := [] |}
      | Some parts =>
          let pl :=
            run_schedule schedule
              (spawn_all (callback messages executions <$> parts)) in
          {| completed :=
               match promise_all (tasks pl) with
               | Some processedParts =>
                   Fulfilled (slice_0_m1 messages
                              ++ [with_parts lastMessage processedParts])
               | None => Pending
               end;
             dataStream_after := dataStream ++ (snd <$> written pl);
             run_calls := calls pl;
             run_written := written pl |}
      end
  end.

(** ** What a callback amounts to once it has run to its end *)

Definition final_part (c : coroutine) : UIPart :=
  match c with
  | Returned _ _ p => p
  | Suspended _ promise k => (k promise).2
  end.

Definition final_writes (c : coroutine) : list DataStreamPart :=
  match c with
  | Returned _ w _ => w
  | Suspended _ promise k => (k promise).1
  end.

(** The reconciliation of one part: the value its callback returns. *)
Definition reconcile (messages : list Message) (executions : executions_t)
  (part : UIPart) : UIPart :=
  final_part (callback messages executions part).

(** The entries of a tagged log that belong to part [i]. *)
Definition tagged {E : Type} (i : nat) (l : list (nat * E)) : list E :=
  omap (λ e, if decide (e.1 = i) then Some e.2 else None) l.

(** ** States of a part during a pass *)

(** Part [i], whose callback is [c], is as [parts.map] left it ... *)
Definition as_spawned (c : coroutine) (pl : pool) (i : nat) : Prop :=
  tasks pl !! i = Some (task_of c) ∧ tagged i (written pl) = sync_writes c.

(** ... or its callback has run to its [return]. *)
Definition finished (c : coroutine) (pl : pool) (i : nat) : Prop :=
  tasks pl !! i = Some (Settled (final_part c))
  ∧ tagged i (written pl) = final_writes c.

(** What holds of the pool throughout a pass over the callbacks [cs]. *)
Definition pool_inv (cs : list coroutine) (pl : pool) : Prop :=
  calls pl = calls (spawn_all cs)
  ∧ length (tasks pl) = length cs
  ∧ (∀ i, length cs ≤ i → tagged i (written pl) = [])
  ∧ (∀ i c, cs !! i = Some c → as_spawned c pl i ∨ finished c pl i).

(** ** Vocabulary of the statements *)

(** The parts of the last message of the transcript a pass returns. *)
Definition returned_parts (r : run) : option (list UIPart) :=
  match completed r with
  | Fulfilled out =>
      match last out with
      | Some lastMessage' => parts lastMessage'
      | None => None
      end
  | _ => None
  end.

(** The identifier of the invocation a part carries, if it is a
    tool-invocation part. *)
Definition part_toolCallId (p : UIPart) : option string :=
  match p with
  | ToolInvocationUIPart ti => Some (toolCallId (ti_call ti))
  | OtherUIPart _ _ => None
  end.

(** A tool-invocation part in ['result'] state whose result is one of the
    two decision sentinels. *)
Definition carries_decision (p : UIPart) : bool :=
  match p with
  | ToolInvocationUIPart (result _ _ r) =>
      strict_equals_string r (YES APPROVAL)
      || strict_equals_string r (NO APPROVAL)
  | _ => false
  end.

(** The parts step 3 or 4 of the pass applies to: a decision is recorded
    and the tool name is a property of [executions], own or inherited. *)
Definition to_rewrite (executions : executions_t) (p : UIPart) : bool :=
  match p with
  | ToolInvocationUIPart ti =>
      isValidToolName (toolName (ti_call ti)) executions && carries_decision p
  | OtherUIPart _ _ => false
  end.

(** [s] occurs in [t]. *)
Definition contains (t s : string) : Prop :=
  ∃ before after, t = before +:+ s +:+ after.

(** The parts the pass leaves alone by step 1 or 2: not a tool invocation,
    or a tool name that is no property of [executions], own or inherited,
    or a state other than ['result']. *)
Definition skipped (executions : executions_t) (p : UIPart) : Prop :=
  match p with
  | OtherUIPart _ _ => True
  | ToolInvocationUIPart ti =>
      executions !! toolName (ti_call ti) = None ∨ ti_state ti ≠ state_result
  end.

(** Every promise that a callback of [cs] awaits settles at some point of
    the schedule, so that every suspended callback is resumed. *)
Definition resumes_all (schedule : list nat) (cs : list coroutine) : bool :=
  forallb
    (λ ic : nat * coroutine,
       match ic.2 with
       | Suspended _ _ _ => bool_decide (ic.1 ∈ schedule)
       | Returned _ _ _ => true
       end)
    (imap pair cs).

(** The condition under which a pass over [ps] returns. *)
Definition settles (messages : list Message) (executions : executions_t)
  (ps : list UIPart) (schedule : list nat) : Prop :=
  resumes_all schedule (callback messages executions <$> ps) = true.

(** ** The order of the writes *)

(** The indices of a schedule at their first occurrence, those of [seen]
    left out: a promise settles once. *)
Fixpoint first_occurrences (seen schedule : list nat) : list nat :=
  match schedule with
  | [] => []
  | j :: schedule =>
      if decide (j ∈ seen) then first_occurrences seen schedule
      else j :: first_occurrences (j :: seen) schedule
  end.

(** What the callback of part [j] writes when it is resumed. *)
Definition resumed_writes (cs : list coroutine) (j : nat)
  : list (nat * DataStreamPart) :=
  match cs !! j with
  | Some (Suspended _ promise k) => tag j (k promise).1
  | _ => []
  end.

(** ** Scenarios *)

(** The sentinels as the end-to-end scenarios of the specification write
    them. *)
Definition scenario_APPROVAL : APPROVAL_t :=
  {| YES := "APPROVAL_YES"; NO := "APPROVAL_NO" |}.

(** A resolver returning a fixed string, one whose promise is rejected and
    one that throws before it returns a promise. *)
Definition fixed_resolver (s : string) : resolver :=
  λ _ _, promised (fulfilled (VString s)).

Definition failing_resolver (e : exn) : resolver :=
  λ _ _, promised (rejected e).

Definition throwing_resolver (e : exn) : resolver :=
  λ _ _, thrown e.

(** What stands for the functions of [Object.prototype] in the scenarios,
    where they are called without a receiver and with an object as first
    argument: [toString] answers ["[object Undefined]"], [constructor]
    (that is, [Object]) returns its argument, and the others throw a
    [TypeError] for want of a receiver.  Only [toString] is called in the
    scenarios. *)
Definition scenario_builtin (name : string) : resolver :=
  λ args _,
    if bool_decide (name = "toString")
    then promised (fulfilled (VString "[object Undefined]"))
    else if bool_decide (name = "constructor")
    then promised (fulfilled
                     match args with
                     | VUndefined | VNull => VObject []
                     | _ => args
                     end)
    else thrown (TypeError "Cannot convert undefined or null to object").

Definition scenario_executions : executions_t :=
  {| own_properties :=
       {[ "getWeatherInformation" := callable (fixed_resolver "Sunny in Lima");
          "sendWebhook" :=
            callable (failing_resolver (JsError "Error" "upstream timeout"));
          "disabled" := not_callable false ]};
     inherited_properties := Object_prototype scenario_builtin |}.

Definition tool_call (call_id name : string) : ToolCall :=
  {| toolCallId := call_id; toolName := name;
     args := VObject [("city", VString "Lima")] |}.

Definition scenario_parts : list UIPart :=
  [ OtherUIPart text (VString "Let me check.");
    ToolInvocationUIPart
      (result None (tool_call "call_1" "getWeatherInformation")
         (VString "APPROVAL_YES"));
    ToolInvocationUIPart
      (result None (tool_call "call_2" "sendWebhook") (VString "APPROVAL_YES"));
    ToolInvocationUIPart
      (result None (tool_call "call_3" "getWeatherInformation")
         (VString "APPROVAL_NO"));
    ToolInvocationUIPart
      (result (Some 0%Z) (tool_call "call_4" "getWeatherInformation")
         (VString "Sunny in Lima"));
    ToolInvocationUIPart
      (result None (tool_call "call_5" "getLocalTime") (VString "APPROVAL_YES"));
    ToolInvocationUIPart
      (result None (tool_call "call_6" "disabled") (VString "APPROVAL_YES")) ].

(** What the pass is expected to make of [scenario_parts]. *)
Definition scenario_reconciled : list UIPart :=
  [ OtherUIPart text (VString "Let me check.");
    ToolInvocationUIPart
      (result None (tool_call "call_1" "getWeatherInformation")
         (VString "Sunny in Lima"));
    ToolInvocationUIPart
      (result None (tool_call "call_2" "sendWebhook")
         (VString "Error executing tool: Error: upstream timeout"));
    ToolInvocationUIPart
      (result None (tool_call "call_3" "getWeatherInformation")
         (VString "Error: User denied access to tool execution"));
    ToolInvocationUIPart
      (result (Some 0%Z) (tool_call "call_4" "getWeatherInformation")
         (VString "Sunny in Lima"));
    ToolInvocationUIPart
      (result None (tool_call "call_5" "getLocalTime") (VString "APPROVAL_YES"));
    ToolInvocationUIPart
      (result None (tool_call "call_6" "disabled")
         (VString "Error: No execute function found on tool")) ].

Definition scenario_user : Message :=
  {| id := "msg-1"; createdAt := Some 1700000000000%Z;
     content := "what's the weather in Lima?"; role := user;
     parts := None; others := [] |}.

Definition scenario_assistant : Message :=
  {| id := "msg-2"; createdAt := Some 1700000001000%Z;
     content := ""; role := assistant;
     parts := Some scenario_parts;
     others := [("annotations", VArray [])] |}.

Definition scenario_messages : list Message :=
  [scenario_user; scenario_assistant].

(** A last message none of whose parts carries a decision. *)
Definition settled_assistant : Message :=
  {| id := "msg-2"; createdAt := None; content := ""; role := assistant;
     parts :=
       Some [ OtherUIPart text (VString "Here is the weather.");
              ToolInvocationUIPart
                (call None (tool_call "call_8" "getWeatherInformation"));
              ToolInvocationUIPart
                (result None (tool_call "call_9" "getWeatherInformation")
                   (VString "Sunny in Lima")) ];
     others := [] |}.

Definition settled_messages : list Message :=
  [scenario_user; settled_assistant].

(** A last message with an approved weather call next to an invocation that
    has no result yet. *)
Definition pending_sibling_parts : list UIPart :=
  [ ToolInvocationUIPart
      (result None (tool_call "call_1" "getWeatherInformation")
         (VString "APPROVAL_YES"));
    ToolInvocationUIPart (call None (tool_call "call_2" "getLocalTime")) ].

Definition pending_sibling_messages : list Message :=
  [ scenario_user;
    {| id := "msg-2"; createdAt := None; content := ""; role := assistant;
       parts := Some pending_sibling_parts; others := [] |} ].

(** A last message with two decisions whose tool names are no tools but
    names of [Object.prototype]. *)
Definition inherited_name_parts : list UIPart :=
  [ ToolInvocationUIPart
      (result None (tool_call "call_1" "toString") (VString "APPROVAL_YES"));
    ToolInvocationUIPart
      (result None (tool_call "call_2" "constructor") (VString "APPROVAL_NO")) ].

Definition inherited_name_assistant : Message :=
  {| id := "msg-2"; createdAt := None; content := ""; role := assistant;
     parts := Some inherited_name_parts; others := [] |}.

Definition inherited_name_messages : list Message :=
  [scenario_user; inherited_name_assistant].

(** A conversion that accepts a transcript only when every tool
    invocation of its messages has a result, as the one of the [ai]
    package does.  (The message of the package's error goes on with the
    JSON text of the invocation, which is left out.) *)
Definition has_result (p : UIPart) : bool :=
  match p with
  | ToolInvocationUIPart ti => is_result_state (ti_state ti)
  | OtherUIPart _ _ => true
  end.

Definition MessageConversionError : exn :=
  JsError "AI_MessageConversionError" "ToolInvocation must have a result".

Definition strict_conversion (messages : list Message)
  : exn + list Message :=
  if forallb (λ m, forallb has_result (default [] (parts m))) messages
  then inr messages
  else inl MessageConversionError.

(** * Properties *)

(** ** Tagged logs *)

Lemma tagged_app {E : Type} (i : nat) (l1 l2 : list (nat * E)) :
  tagged i (l1 ++ l2) = tagged i l1 ++ tagged i l2.
Proof. apply omap_app. Qed.

Lemma tagged_tag {E : Type} (i j : nat) (l : list E) :
  tagged i (tag j l) = if decide (j = i) then l else [].
Proof.
  unfold tagged, tag. destruct (decide (j = i)) as [->|Hne].
  - induction l as [|d l IH]; [done|].
    cbn. rewrite decide_True by done. by f_equal.
  - induction l as [|d l IH]; [done|].
    cbn. by rewrite decide_False by done.
Qed.

Lemma tagged_tag_eq {E : Type} (i : nat) (l : list E) :
  tagged i (tag i l) = l.
Proof. rewrite tagged_tag. by case_decide. Qed.

Lemma tagged_tag_ne {E : Type} (i j : nat) (l : list E) :
  j ≠ i → tagged i (tag j l) = [].
Proof. intros. rewrite tagged_tag. by case_decide. Qed.

(** In the log of the synchronous phase the entries of part [i] are those
    its own callback made. *)
Lemma tagged_concat_imap_from {A E : Type} (g : A → list E) (l : list A)
    (n i : nat) :
  tagged i (concat (imap (λ j a, tag (n + j) (g a)) l))
  = if decide (n ≤ i) then from_option g [] (l !! (i - n)) else [].
Proof.
  revert n. induction l as [|a l IH]; intros n; simpl.
  - by case_decide.
  - rewrite tagged_app, tagged_tag, Nat.add_0_r.
    rewrite (imap_ext _ (λ j b, tag (S n + j) (g b))); last first.
    { intros j b _. simpl. f_equal. lia. }
    rewrite IH.
    destruct (decide (n = i)) as [->|Hne].
    + rewrite Nat.sub_diag. simpl.
      rewrite decide_False by lia. rewrite decide_True by lia.
      by rewrite app_nil_r.
    + simpl. destruct (decide (n ≤ i)) as [Hle|Hgt].
      * rewrite decide_True by lia.
        replace (i - n) with (S (i - S n)) by lia. done.
      * by rewrite decide_False by lia.
Qed.

Lemma tagged_concat_imap {A E : Type} (g : A → list E) (l : list A) (i : nat) :
  tagged i (concat (imap (λ j a, tag j (g a)) l)) = from_option g [] (l !! i).
Proof.
  change (λ j a, tag j (g a)) with (λ j a, tag (0 + j) (g a)).
  rewrite tagged_concat_imap_from.
  rewrite decide_True by lia. by rewrite Nat.sub_0_r.
Qed.

Lemma elem_of_tagged {E : Type} (l : list (nat * E)) (e : nat * E) :
  e ∈ l → e.2 ∈ tagged e.1 l.
Proof.
  intros He. unfold tagged. apply list_elem_of_omap.
  exists e. split; [done|]. by rewrite decide_True.
Qed.

(** If only entries of part [i] satisfy [P], selecting by [P] looks at the
    entries of part [i] alone. *)
Lemma filter_tagged {E : Type} (P : E → Prop) `{!∀ x, Decision (P x)}
    (i : nat) (l : list (nat * E)) :
  (∀ e, e ∈ l → P e.2 → e.1 = i) →
  filter P (snd <$> l) = filter P (tagged i l).
Proof.
  induction l as [|e l IH]; intros Honly; [done|].
  assert (filter P (snd <$> l) = filter P (tagged i l)) as IH'.
  { apply IH. intros e' He'. apply Honly. by right. }
  assert (tagged i (e :: l)
          = if decide (e.1 = i) then e.2 :: tagged i l else tagged i l) as ->.
  { unfold tagged. simpl. by destruct (decide (e.1 = i)). }
  rewrite fmap_cons. destruct (decide (P e.2)) as [HP|HP].
  - rewrite decide_True by (apply Honly; [by left|done]).
    rewrite !filter_cons_True by done. by f_equal.
  - rewrite filter_cons_False by done.
    destruct (decide (e.1 = i)); [|done].
    by rewrite filter_cons_False by done.
Qed.

Lemma concat_imap_nil {A B : Type} (f : nat → A → list B) (l : list A) :
  (∀ i a, l !! i = Some a → f i a = []) → concat (imap f l) = [].
Proof.
  revert f. induction l as [|a l IH]; intros f Hnil; [done|].
  simpl. rewrite (Hnil 0 a) by done. simpl. apply IH.
  intros i b Hb. by apply (Hnil (S i)).
Qed.

(** ** The scheduler *)

Lemma finished_of_returned (m : list invocation) (w : list DataStreamPart)
    (p : UIPart) (pl : pool) (i : nat) :
  as_spawned (Returned m w p) pl i → finished (Returned m w p) pl i.
Proof. done. Qed.

Lemma pool_inv_spawn (cs : list coroutine) : pool_inv cs (spawn_all cs).
Proof.
  split; [done|]. split; [simpl; by rewrite length_fmap|]. split.
  - intros i Hi. simpl. rewrite tagged_concat_imap.
    by rewrite lookup_ge_None_2.
  - intros i c Hc. left. split; simpl.
    + by rewrite list_lookup_fmap, Hc.
    + by rewrite tagged_concat_imap, Hc.
Qed.

Lemma settle_calls (pl : pool) (j : nat) : calls (settle pl j) = calls pl.
Proof.
  unfold settle. destruct (tasks pl !! j) as [[|promise k]|]; try done.
  by destruct (k promise).
Qed.

Lemma settle_length (pl : pool) (j : nat) :
  length (tasks (settle pl j)) = length (tasks pl).
Proof.
  unfold settle. destruct (tasks pl !! j) as [[|promise k]|]; try done.
  destruct (k promise). simpl. by rewrite length_insert.
Qed.

(** Settling [j] leaves every other part as it was. *)
Lemma settle_other (pl : pool) (i j : nat) :
  i ≠ j →
  tasks (settle pl j) !! i = tasks pl !! i
  ∧ tagged i (written (settle pl j)) = tagged i (written pl).
Proof.
  intros Hne. unfold settle.
  destruct (tasks pl !! j) as [[|promise k]|]; try done.
  destruct (k promise) as [w p]. simpl. split.
  - by rewrite list_lookup_insert_ne.
  - rewrite tagged_app, tagged_tag_ne by done. by rewrite app_nil_r.
Qed.

(** Settling [i] runs the callback of part [i] to its end. *)
Lemma settle_same (c : coroutine) (pl : pool) (i : nat) :
  as_spawned c pl i ∨ finished c pl i → finished c (settle pl i) i.
Proof.
  intros [[Ht Hw]|[Ht Hw]]; unfold settle; rewrite Ht.
  - destruct c as [m w p|inv promise k]; simpl; [done|].
    destruct (k promise) as [w p] eqn:Hk. split; simpl.
    + rewrite list_lookup_insert_eq; [by rewrite Hk|]. by eapply lookup_lt_Some.
    + rewrite tagged_app, tagged_tag_eq, Hw. simpl. by rewrite Hk.
  - done.
Qed.

Lemma pool_inv_settle (cs : list coroutine) (pl : pool) (j : nat) :
  pool_inv cs pl → pool_inv cs (settle pl j).
Proof.
  intros (Hcalls & Hlen & Hout & Hparts).
  split; [by rewrite settle_calls|].
  split; [by rewrite settle_length|]. split.
  - intros i Hi. destruct (decide (i = j)) as [->|Hne].
    + unfold settle. destruct (tasks pl !! j) as [t|] eqn:Ht.
      * apply lookup_lt_Some in Ht. lia.
      * by apply Hout.
    + destruct (settle_other pl i j Hne) as [_ ->]. by apply Hout.
  - intros i c Hc. destruct (decide (i = j)) as [->|Hne].
    + right. apply settle_same. by apply Hparts.
    + destruct (settle_other pl i j Hne) as [Ht Hw].
      unfold as_spawned, finished. rewrite Ht, Hw. by apply Hparts.
Qed.

Lemma pool_inv_run (cs : list coroutine) (schedule : list nat) (pl : pool) :
  pool_inv cs pl → pool_inv cs (run_schedule schedule pl).
Proof.
  revert pl. induction schedule as [|j schedule IH]; intros pl Hinv; [done|].
  apply IH. by apply pool_inv_settle.
Qed.

(** Once finished, a part stays finished. *)
Lemma finished_settle (c : coroutine) (pl : pool) (i j : nat) :
  finished c pl i → finished c (settle pl j) i.
Proof.
  intros Hfin. destruct (decide (i = j)) as [->|Hne].
  - apply settle_same. by right.
  - destruct (settle_other pl i j Hne) as [Ht Hw].
    unfold finished. by rewrite Ht, Hw.
Qed.

Lemma finished_run (c : coroutine) (schedule : list nat) (pl : pool) (i : nat) :
  finished c pl i → finished c (run_schedule schedule pl) i.
Proof.
  revert pl. induction schedule as [|j schedule IH]; intros pl Hfin; [done|].
  apply IH. by apply finished_settle.
Qed.

(** A part whose index occurs in the schedule is finished after it. *)
Lemma finished_scheduled (cs : list coroutine) (c : coroutine)
    (schedule : list nat) (pl : pool) (i : nat) :
  pool_inv cs pl → cs !! i = Some c → i ∈ schedule →
  finished c (run_schedule schedule pl) i.
Proof.
  revert pl. induction schedule as [|j schedule IH]; intros pl Hinv Hc Hin.
  - by apply elem_of_nil in Hin.
  - apply elem_of_cons in Hin as [->|Hin]; simpl.
    + apply finished_run, settle_same. by apply Hinv.
    + apply IH; [by apply pool_inv_settle|done..].
Qed.

(** A part whose index does not occur in the schedule stays as spawned. *)
Lemma as_spawned_run (c : coroutine) (schedule : list nat) (pl : pool)
    (i : nat) :
  i ∉ schedule → as_spawned c pl i → as_spawned c (run_schedule schedule pl) i.
Proof.
  revert pl. induction schedule as [|j schedule IH]; intros pl Hnot Hsp; [done|].
  apply not_elem_of_cons in Hnot as [Hne Hnot]. simpl. apply IH; [done|].
  destruct (settle_other pl i j Hne) as [Ht Hw].
  unfold as_spawned. by rewrite Ht, Hw.
Qed.

(** A callback that did not suspend is finished from the start, whatever
    the schedule. *)
Lemma finished_returned (cs : list coroutine) (m : list invocation)
    (w : list DataStreamPart) (p : UIPart) (schedule : list nat) (i : nat) :
  cs !! i = Some (Returned m w p) →
  finished (Returned m w p) (run_schedule schedule (spawn_all cs)) i.
Proof.
  intros Hc. apply finished_run.
  destruct (pool_inv_spawn cs) as (_ & _ & _ & Hparts).
  destruct (Hparts i _ Hc) as [H|H]; [by apply finished_of_returned|done].
Qed.

Lemma resumes_all_spec (schedule : list nat) (cs : list coroutine) (i : nat)
    (inv : invocation) (promise : settlement)
    (k : settlement → list DataStreamPart * UIPart) :
  resumes_all schedule cs = true →
  cs !! i = Some (Suspended inv promise k) → i ∈ schedule.
Proof.
  intros Hall Hc. unfold resumes_all in Hall.
  apply Is_true_true, forallb_True in Hall. rewrite Forall_lookup in Hall.
  specialize (Hall i (i, Suspended inv promise k)).
  rewrite list_lookup_imap, Hc in Hall. simpl in Hall.
  specialize (Hall eq_refl). by apply bool_decide_unpack in Hall.
Qed.

Lemma finished_all (cs : list coroutine) (schedule : list nat) :
  resumes_all schedule cs = true →
  ∀ i c, cs !! i = Some c →
    finished c (run_schedule schedule (spawn_all cs)) i.
Proof.
  intros Hfair i c Hc. destruct c as [m w p|inv promise k].
  - by apply finished_returned.
  - eapply finished_scheduled; [apply pool_inv_spawn|done|].
    by eapply resumes_all_spec.
Qed.

(** [Promise.all] hands back the returned parts in input order. *)
Lemma promise_all_finished (cs : list coroutine) (pl : pool) :
  length (tasks pl) = length cs →
  (∀ i c, cs !! i = Some c → finished c pl i) →
  promise_all (tasks pl) = Some (final_part <$> cs).
Proof.
  intros Hlen Hfin.
  assert (tasks pl = Settled <$> (final_part <$> cs)) as ->.
  { apply list_eq. intros i. rewrite !list_lookup_fmap.
    destruct (cs !! i) as [c|] eqn:Hc; simpl.
    - by destruct (Hfin i c Hc) as [-> _].
    - apply lookup_ge_None. apply lookup_ge_None in Hc. lia. }
  by apply mapM_fmap_Some.
Qed.

(** [Promise.all] stays pending while some callback is suspended. *)
Lemma promise_all_waiting (ts : list task) (i : nat) (promise : settlement)
    (k : settlement → list DataStreamPart * UIPart) :
  ts !! i = Some (Waiting promise k) → promise_all ts = None.
Proof.
  intros Hi. destruct (promise_all ts) as [ps|] eqn:Hall; [|done].
  apply mapM_Some_1 in Hall.
  destruct (Forall2_lookup_l _ _ _ _ _ Hall Hi) as (p & _ & Hp). done.
Qed.

(** Nothing happens after [parts.map] when no callback has suspended. *)
Lemma run_schedule_settled (schedule : list nat) (pl : pool) :
  Forall (λ t, ∃ p, t = Settled p) (tasks pl) →
  run_schedule schedule pl = pl.
Proof.
  intros Hall. induction schedule as [|j schedule IH]; [done|].
  simpl. replace (settle pl j) with pl; [done|].
  unfold settle. destruct (tasks pl !! j) as [t|] eqn:Ht; [|done].
  rewrite Forall_lookup in Hall. by destruct (Hall j t Ht) as [p ->].
Qed.

Lemma spawn_all_returned (ps : list UIPart) :
  spawn_all ((λ p, Returned [] [] p) <$> ps)
  = {| tasks := Settled <$> ps; calls := []; written := [] |}.
Proof.
  unfold spawn_all. f_equal.
  - by rewrite <-list_fmap_compose.
  - apply concat_imap_nil. intros i c Hc.
    rewrite list_lookup_fmap in Hc.
    destruct (ps !! i); simplify_eq/=. done.
  - apply concat_imap_nil. intros i c Hc.
    rewrite list_lookup_fmap in Hc.
    destruct (ps !! i); simplify_eq/=. done.
Qed.

(** ** The branches of the callback *)

Lemma string_app_empty_r (s : string) : s +:+ "" = s.
Proof.
  induction s as [|a s IH]; [done|].
  change (String a (s +:+ "") = String a s). by rewrite IH.
Qed.

Lemma contains_suffix (before s : string) : contains (before +:+ s) s.
Proof. exists before, "". by rewrite string_app_empty_r. Qed.

Lemma strict_equals_string_true (v : value) (s : string) :
  strict_equals_string v s = true ↔ v = VString s.
Proof.
  destruct v; simpl; try (split; [done|congruence]).
  rewrite bool_decide_eq_true. split; congruence.
Qed.

Lemma isValidToolName_true (key : string) (obj : executions_t) :
  isValidToolName key obj = true ↔ is_Some (obj !! key).
Proof. apply bool_decide_eq_true. Qed.

Lemma isValidToolName_false (key : string) (obj : executions_t) :
  isValidToolName key obj = false ↔ obj !! key = None.
Proof.
  unfold isValidToolName. rewrite bool_decide_eq_false.
  by rewrite eq_None_not_Some.
Qed.

Lemma lookup_own_property (obj : executions_t) (key : string)
    (v : property_value) :
  own_properties obj !! key = Some v → obj !! key = Some v.
Proof.
  intros Hown. unfold lookup at 1, executions_lookup. by rewrite Hown.
Qed.

Lemma lookup_inherited_property (obj : executions_t) (key : string) :
  own_properties obj !! key = None →
  obj !! key = inherited_properties obj !! key.
Proof.
  intros Hown. unfold lookup at 1, executions_lookup. by rewrite Hown.
Qed.

Lemma get_property_lookup (obj : executions_t) (key : string)
    (v : property_value) :
  obj !! key = Some v → get_property obj key = v.
Proof. intros Hv. unfold get_property. by rewrite Hv. Qed.

Section branches.

Context (messages : list Message) (executions : executions_t).

Lemma callback_other (t : other_type) (b : value) :
  callback messages executions (OtherUIPart t b)
  = Returned [] [] (OtherUIPart t b).
Proof. done. Qed.

Lemma callback_unlisted (ti : ToolInvocation) :
  executions !! toolName (ti_call ti) = None →
  callback messages executions (ToolInvocationUIPart ti)
  = Returned [] [] (ToolInvocationUIPart ti).
Proof.
  intros Hnone. apply isValidToolName_false in Hnone.
  unfold callback. by rewrite Hnone.
Qed.

Lemma callback_not_result (ti : ToolInvocation) :
  ti_state ti ≠ state_result →
  callback messages executions (ToolInvocationUIPart ti)
  = Returned [] [] (ToolInvocationUIPart ti).
Proof.
  intros Hst. unfold callback.
  destruct ti; simpl in *; try done; by rewrite orb_true_r.
Qed.

(** The approved branch, once the two guards are passed. *)
Lemma callback_approved_entry (step : option Z) (c : ToolCall)
    (v : property_value) :
  executions !! toolName c = Some v →
  callback messages executions
    (ToolInvocationUIPart (result step c (VString (YES APPROVAL))))
  = match v with
    | not_callable false =>
        Returned []
          [tool_result (toolCallId c)
             (VString "Error: No execute function found on tool")]
          (ToolInvocationUIPart
             (result step c
                (VString "Error: No execute function found on tool")))
    | _ =>
        match convertToCoreMessages messages with
        | inl error =>
            Returned [] [tool_result (toolCallId c) (caught error)]
              (ToolInvocationUIPart (result step c (caught error)))
        | inr core =>
            match v with
            | callable f =>
                let inv :=
                  {| inv_toolName := toolName c; inv_args := args c;
                     inv_options := options_for core c |} in
                match f (args c) (options_for core c) with
                | thrown error =>
                    Returned [inv] [tool_result (toolCallId c) (caught error)]
                      (ToolInvocationUIPart (result step c (caught error)))
                | promised promise =>
                    Suspended inv promise (λ s, forward step c (try_result s))
                end
            | not_callable _ =>
                Returned []
                  [tool_result (toolCallId c) (caught TypeError_toolInstance)]
                  (ToolInvocationUIPart
                     (result step c (caught TypeError_toolInstance)))
            end
        end
    end.
Proof.
  intros Hv. unfold callback. cbn [ti_call ti_state is_result_state].
  rewrite (get_property_lookup _ _ _ Hv).
  assert (isValidToolName (toolName c) executions = true) as ->
    by (apply isValidToolName_true; eauto).
  cbn [negb orb strict_equals_string]. rewrite bool_decide_true by done.
  destruct v as [f|[]].
  - destruct (convertToCoreMessages messages) as [error|core]; [done|].
    cbn zeta. by destruct (f (args c) (options_for core c)).
  - by destruct (convertToCoreMessages messages).
  - done.
Qed.

Lemma callback_approved (step : option Z) (c : ToolCall) (f : resolver)
    (core : list CoreMessage) (promise : settlement) :
  executions !! toolName c = Some (callable f) →
  convertToCoreMessages messages = inr core →
  f (args c) (options_for core c) = promised promise →
  callback messages executions
    (ToolInvocationUIPart (result step c (VString (YES APPROVAL))))
  = Suspended
      {| inv_toolName := toolName c; inv_args := args c;
         inv_options := options_for core c |}
      promise
      (λ s, forward step c (try_result s)).
Proof.
  intros Hf Hcore Hcall. rewrite (callback_approved_entry _ _ _ Hf).
  rewrite Hcore. cbn zeta. by rewrite Hcall.
Qed.

(** The resolver throws before it returns a promise: the callback does not
    suspend. *)
Lemma callback_thrown (step : option Z) (c : ToolCall) (f : resolver)
    (core : list CoreMessage) (e : exn) :
  executions !! toolName c = Some (callable f) →
  convertToCoreMessages messages = inr core →
  f (args c) (options_for core c) = thrown e →
  callback messages executions
    (ToolInvocationUIPart (result step c (VString (YES APPROVAL))))
  = Returned
      [ {| inv_toolName := toolName c; inv_args := args c;
           inv_options := options_for core c |} ]
      [tool_result (toolCallId c) (caught e)]
      (ToolInvocationUIPart (result step c (caught e))).
Proof.
  intros Hf Hcore Hcall. rewrite (callback_approved_entry _ _ _ Hf).
  rewrite Hcore. cbn zeta. by rewrite Hcall.
Qed.

(** The context cannot be built: the resolver is not called. *)
Lemma callback_conversion_failed (step : option Z) (c : ToolCall)
    (f : resolver) (e : exn) :
  executions !! toolName c = Some (callable f) →
  convertToCoreMessages messages = inl e →
  callback messages executions
    (ToolInvocationUIPart (result step c (VString (YES APPROVAL))))
  = Returned [] [tool_result (toolCallId c) (caught e)]
      (ToolInvocationUIPart (result step c (caught e))).
Proof.
  intros Hf Hcore. rewrite (callback_approved_entry _ _ _ Hf).
  by rewrite Hcore.
Qed.

Lemma callback_no_function (step : option Z) (c : ToolCall) :
  executions !! toolName c = Some (not_callable false) →
  callback messages executions
    (ToolInvocationUIPart (result step c (VString (YES APPROVAL))))
  = Returned []
      [tool_result (toolCallId c)
         (VString "Error: No execute function found on tool")]
      (ToolInvocationUIPart
         (result step c (VString "Error: No execute function found on tool"))).
Proof. intros Hf. by rewrite (callback_approved_entry _ _ _ Hf). Qed.

Lemma callback_denied (step : option Z) (c : ToolCall) :
  YES APPROVAL ≠ NO APPROVAL →
  is_Some (executions !! toolName c) →
  callback messages executions
    (ToolInvocationUIPart (result step c (VString (NO APPROVAL))))
  = Returned []
      [tool_result (toolCallId c)
         (VString "Error: User denied access to tool execution")]
      (ToolInvocationUIPart
         (result step c
            (VString "Error: User denied access to tool execution"))).
Proof.
  intros Hne Hin. unfold callback, isValidToolName. simpl.
  rewrite (bool_decide_true (is_Some _)) by done.
  rewrite (bool_decide_false (NO APPROVAL = YES APPROVAL)) by done.
  rewrite (bool_decide_true (NO APPROVAL = NO APPROVAL)) by done. done.
Qed.

Lemma callback_undecided (p : UIPart) :
  carries_decision p = false →
  callback messages executions p = Returned [] [] p.
Proof.
  intros Hund. destruct p as [[step c|step c|step c r]|t b]; simpl in *.
  - by rewrite orb_true_r.
  - by rewrite orb_true_r.
  - apply orb_false_iff in Hund as [-> ->]. by destruct (_ || _).
  - done.
Qed.

(** A part that is not to be rewritten comes back as it is, without a call
    and without a write. *)
Lemma callback_not_to_rewrite (p : UIPart) :
  to_rewrite executions p = false →
  callback messages executions p = Returned [] [] p.
Proof.
  destruct p as [ti|t b]; [|done]. unfold to_rewrite.
  intros [Hin|Hund]%andb_false_iff.
  - apply callback_unlisted. by apply isValidToolName_false.
  - by apply callback_undecided.
Qed.

(** A part that is to be rewritten is in ['result'] state; it gets a new
    result, and that result is written once under the part's identifier. *)
Lemma callback_to_rewrite (p : UIPart) :
  to_rewrite executions p = true →
  ∃ step c r res,
    p = ToolInvocationUIPart (result step c r)
    ∧ final_part (callback messages executions p)
      = ToolInvocationUIPart (result step c res)
    ∧ final_writes (callback messages executions p)
      = [tool_result (toolCallId c) res].
Proof.
  destruct p as [[step c|step c|step c r]|t b];
    try (unfold to_rewrite; simpl; by rewrite ?andb_false_r).
  unfold to_rewrite. intros [Hin Hdec]%andb_true_iff.
  simpl in Hin, Hdec. exists step, c, r.
  destruct (strict_equals_string r (YES APPROVAL)) eqn:Hyes.
  - apply strict_equals_string_true in Hyes as ->.
    apply isValidToolName_true in Hin as [v Hv].
    rewrite (callback_approved_entry _ _ _ Hv).
    destruct v as [f|[]].
    + destruct (convertToCoreMessages messages) as [error|core];
        [simpl; eauto|].
      cbn zeta. destruct (f (args c) (options_for core c)); simpl; eauto.
    + destruct (convertToCoreMessages messages); simpl; eauto.
    + simpl. eauto.
  - simpl in Hdec. unfold callback. simpl. rewrite Hin, Hyes, Hdec.
    simpl. eauto.
Qed.

(** Every write of a callback carries the identifier of its part. *)
Lemma callback_writes_id (p : UIPart) (d : DataStreamPart) :
  d ∈ final_writes (callback messages executions p) →
  part_toolCallId p = Some (tr_toolCallId d).
Proof.
  destruct (to_rewrite executions p) eqn:Hrw.
  - destruct (callback_to_rewrite p Hrw) as (step & c & r & res & -> & _ & ->).
    intros ->%list_elem_of_singleton. done.
  - rewrite callback_not_to_rewrite by done. simpl.
    by intros ?%elem_of_nil.
Qed.

(** A call is made only by the callback of an approved part whose tool
    name leads to a function, after the context has been built. *)
Lemma callback_calls (p : UIPart) (inv : invocation) :
  inv ∈ sync_calls (callback messages executions p) →
  ∃ step c f core,
    p = ToolInvocationUIPart (result step c (VString (YES APPROVAL)))
    ∧ executions !! toolName c = Some (callable f)
    ∧ convertToCoreMessages messages = inr core
    ∧ inv = {| inv_toolName := toolName c; inv_args := args c;
               inv_options := options_for core c |}.
Proof.
  destruct (to_rewrite executions p) eqn:Hrw; last first.
  { rewrite callback_not_to_rewrite by done. by intros ?%elem_of_nil. }
  destruct p as [[step c|step c|step c r]|t b];
    try (unfold to_rewrite in Hrw; simpl in Hrw;
         by rewrite ?andb_false_r in Hrw).
  apply andb_true_iff in Hrw as [Hin Hdec]. simpl in Hin, Hdec.
  destruct (strict_equals_string r (YES APPROVAL)) eqn:Hyes.
  - apply strict_equals_string_true in Hyes as ->.
    apply isValidToolName_true in Hin as [v Hv].
    rewrite (callback_approved_entry _ _ _ Hv).
    destruct v as [f|[]].
    + destruct (convertToCoreMessages messages) as [error|core] eqn:Hcore;
        [by intros ?%elem_of_nil|].
      cbn zeta. destruct (f (args c) (options_for core c)); simpl;
        intros ->%list_elem_of_singleton; by exists step, c, f, core.
    + destruct (convertToCoreMessages messages); by intros ?%elem_of_nil.
    + by intros ?%elem_of_nil.
  - simpl in Hdec. unfold callback. simpl. rewrite Hin, Hyes, Hdec.
    by intros ?%elem_of_nil.
Qed.

(** A callback calls at most one resolver, at most once. *)
Lemma callback_calls_length (p : UIPart) :
  length (sync_calls (callback messages executions p)) ≤ 1.
Proof.
  destruct (to_rewrite executions p) eqn:Hrw; last first.
  { rewrite callback_not_to_rewrite by done. simpl. lia. }
  destruct p as [[step c|step c|step c r]|t b];
    try (unfold to_rewrite in Hrw; simpl in Hrw;
         by rewrite ?andb_false_r in Hrw).
  apply andb_true_iff in Hrw as [Hin Hdec]. simpl in Hin, Hdec.
  destruct (strict_equals_string r (YES APPROVAL)) eqn:Hyes.
  - apply strict_equals_string_true in Hyes as ->.
    apply isValidToolName_true in Hin as [v Hv].
    rewrite (callback_approved_entry _ _ _ Hv).
    destruct v as [f|[]].
    + destruct (convertToCoreMessages messages) as [error|core];
        [simpl; lia|].
      cbn zeta. destruct (f (args c) (options_for core c)); simpl; lia.
    + destruct (convertToCoreMessages messages); simpl; lia.
    + simpl. lia.
  - simpl in Hdec. unfold callback. simpl. rewrite Hin, Hyes, Hdec.
    simpl. lia.
Qed.

End branches.

Local Arguments callback : simpl never.

(** ** The pass as a whole *)

Section pass.

Context (dataStream : list DataStreamPart) (messages : list Message).
Context (executions : executions_t) (schedule : list nat).
Context (lastMessage : Message) (ps : list UIPart).
Context (Hlast : last messages = Some lastMessage).
Context (Hparts : parts lastMessage = Some ps).

Local Abbreviation cb := (callback messages executions).
Local Abbreviation r :=
  (processToolCalls dataStream messages executions schedule).

Lemma pass_stream :
  dataStream_after r = dataStream ++ (snd <$> run_written r).
Proof using Hlast Hparts.
  unfold processToolCalls. by rewrite Hlast, Hparts.
Qed.

(** The resolver calls are exactly those of the synchronous prefixes. *)
Lemma pass_calls (i : nat) :
  tagged i (run_calls r) = from_option (λ p, sync_calls (cb p)) [] (ps !! i).
Proof using Hlast Hparts.
  unfold processToolCalls. rewrite Hlast, Hparts. simpl.
  destruct (pool_inv_run _ schedule _
    (pool_inv_spawn (callback messages executions <$> ps))) as (-> & _).
  simpl. rewrite tagged_concat_imap, list_lookup_fmap.
  by destruct (ps !! i).
Qed.

Lemma pass_written_outside (i : nat) :
  length ps ≤ i → tagged i (run_written r) = [].
Proof using Hlast Hparts.
  intros Hi. unfold processToolCalls. rewrite Hlast, Hparts. simpl.
  destruct (pool_inv_run _ schedule _
    (pool_inv_spawn (callback messages executions <$> ps)))
    as (_ & _ & Hout & _).
  apply Hout. by rewrite length_fmap.
Qed.

Lemma pass_completed :
  settles messages executions ps schedule →
  completed r
  = Fulfilled (slice_0_m1 messages
               ++ [with_parts lastMessage (reconcile messages executions <$> ps)]).
Proof using Hlast Hparts.
  intros Hfair. unfold processToolCalls.
  rewrite Hlast, Hparts. simpl.
  rewrite (promise_all_finished (callback messages executions <$> ps)).
  - by rewrite <-list_fmap_compose.
  - destruct (pool_inv_run _ schedule _
      (pool_inv_spawn (callback messages executions <$> ps))) as (_ & -> & _).
    done.
  - by apply finished_all.
Qed.

Lemma pass_written (i : nat) (p : UIPart) :
  settles messages executions ps schedule →
  ps !! i = Some p →
  tagged i (run_written r) = final_writes (cb p).
Proof using Hlast Hparts.
  intros Hfair Hp. unfold processToolCalls.
  rewrite Hlast, Hparts. simpl.
  eapply (finished_all _ _ Hfair i).
  by rewrite list_lookup_fmap, Hp.
Qed.

(** The pass does not return while an awaited promise has not settled. *)
Lemma pass_pending (i : nat) (p : UIPart) (inv : invocation)
    (promise : settlement) (k : settlement → list DataStreamPart * UIPart) :
  ps !! i = Some p → cb p = Suspended inv promise k → i ∉ schedule →
  completed r = Pending.
Proof using Hlast Hparts.
  intros Hp Hcb Hnot. unfold processToolCalls. rewrite Hlast, Hparts. simpl.
  assert (as_spawned (Suspended inv promise k)
            (run_schedule schedule
               (spawn_all (callback messages executions <$> ps))) i)
    as [Ht _].
  { apply as_spawned_run; [done|].
    destruct (pool_inv_spawn (callback messages executions <$> ps))
      as (_ & _ & _ & Hall).
    destruct (Hall i (Suspended inv promise k)) as [Hsp|[Hfin _]]; [|done|].
    - by rewrite list_lookup_fmap, Hp; simpl; rewrite Hcb.
    - simpl in Hfin. rewrite list_lookup_fmap, list_lookup_fmap, Hp in Hfin.
      simpl in Hfin. by rewrite Hcb in Hfin. }
  by rewrite (promise_all_waiting _ _ _ _ Ht).
Qed.

(** A callback that never suspends has done all its writes whatever the
    schedule. *)
Lemma pass_written_returned (i : nat) (p : UIPart) (m : list invocation)
    (w : list DataStreamPart) (p' : UIPart) :
  ps !! i = Some p → cb p = Returned m w p' →
  tagged i (run_written r) = w.
Proof using Hlast Hparts.
  intros Hp Hcb. unfold processToolCalls.
  rewrite Hlast, Hparts. simpl.
  eapply (finished_returned _ m w p' schedule i).
  by rewrite list_lookup_fmap, Hp; simpl; rewrite Hcb.
Qed.

End pass.

(** ** Consequences used by several statements *)

Lemma pass_fair_completed (dataStream : list DataStreamPart)
    (messages : list Message) (executions : executions_t)
    (schedule : list nat) (lastMessage : Message) (ps : list UIPart) :
  last messages = Some lastMessage →
  parts lastMessage = Some ps →
  settles messages executions ps schedule →
  completed (processToolCalls dataStream messages executions schedule)
  = Fulfilled (slice_0_m1 messages
               ++ [with_parts lastMessage (reconcile messages executions <$> ps)]).
Proof.
  intros Hlast Hparts Hfair.
  by apply (pass_completed _ _ _ _ _ _ Hlast Hparts).
Qed.

(** The parts of the last message of the returned transcript are the
    reconciled parts. *)
Lemma pass_fair_returned_parts (dataStream : list DataStreamPart)
    (messages : list Message) (executions : executions_t)
    (schedule : list nat) (lastMessage : Message) (ps : list UIPart) :
  last messages = Some lastMessage →
  parts lastMessage = Some ps →
  settles messages executions ps schedule →
  returned_parts (processToolCalls dataStream messages executions schedule)
  = Some (reconcile messages executions <$> ps).
Proof.
  intros Hlast Hparts Hfair. unfold returned_parts.
  rewrite (pass_fair_completed _ _ _ _ _ _ Hlast Hparts Hfair).
  by rewrite last_snoc.
Qed.

Lemma pass_fair_written (dataStream : list DataStreamPart)
    (messages : list Message) (executions : executions_t)
    (schedule : list nat) (lastMessage : Message) (ps : list UIPart)
    (i : nat) (p : UIPart) :
  last messages = Some lastMessage →
  parts lastMessage = Some ps →
  settles messages executions ps schedule →
  ps !! i = Some p →
  tagged i (run_written (processToolCalls dataStream messages executions schedule))
  = final_writes (callback messages executions p).
Proof.
  intros Hlast Hparts Hfair Hp.
  by apply (pass_written _ _ _ _ _ _ Hlast Hparts).
Qed.

Lemma reconcile_lookup (messages : list Message) (executions : executions_t)
    (ps : list UIPart) (i : nat) (p : UIPart) :
  ps !! i = Some p →
  (reconcile messages executions <$> ps) !! i
  = Some (reconcile messages executions p).
Proof. intros Hp. by rewrite list_lookup_fmap, Hp. Qed.

Lemma slice_0_m1_snoc (l : list Message) (m : Message) :
  slice_0_m1 (l ++ [m]) = l.
Proof.
  unfold slice_0_m1. rewrite length_app. simpl.
  replace (length l + 1 - 1) with (length l) by lia.
  apply take_app_length.
Qed.

Lemma with_parts_same (m : Message) (ps : list UIPart) :
  parts m = Some ps → with_parts m ps = m.
Proof. destruct m. simpl. by intros ->. Qed.

(** A pass over a last message none of whose parts carries a decision. *)
Lemma pass_all_undecided (dataStream : list DataStreamPart)
    (messages : list Message) (executions : executions_t)
    (schedule : list nat) (lastMessage : Message) :
  last messages = Some lastMessage →
  (∀ ps, parts lastMessage = Some ps →
         Forall (λ p, carries_decision p = false) ps) →
  processToolCalls dataStream messages executions schedule
  = {| completed := Fulfilled messages; dataStream_after := dataStream;
       run_calls := []; run_written := [] |}.
Proof.
  intros Hlast Hund. unfold processToolCalls. rewrite Hlast.
  destruct (parts lastMessage) as [ps|] eqn:Hparts; [|done].
  specialize (Hund ps eq_refl).
  rewrite (list_fmap_ext (callback messages executions)
             (λ p, Returned [] [] p) ps); last first.
  { intros j p Hp. apply callback_undecided.
    rewrite Forall_lookup in Hund. by eapply Hund. }
  rewrite spawn_all_returned, run_schedule_settled; simpl.
  - assert (promise_all (Settled <$> ps) = Some ps) as ->
      by by apply mapM_fmap_Some.
    apply last_Some in Hlast as [l ->].
    by rewrite slice_0_m1_snoc, with_parts_same, app_nil_r.
  - apply Forall_fmap, Forall_true. intros p. by exists p.
Qed.

(** Every write of a pass carries the identifier of the part it is tagged
    with. *)
Lemma pass_written_ids (dataStream : list DataStreamPart)
    (messages : list Message) (executions : executions_t)
    (schedule : list nat) (lastMessage : Message) (ps : list UIPart)
    (e : nat * DataStreamPart) :
  last messages = Some lastMessage →
  parts lastMessage = Some ps →
  settles messages executions ps schedule →
  e ∈ run_written (processToolCalls dataStream messages executions schedule) →
  ∃ p, ps !! e.1 = Some p ∧ part_toolCallId p = Some (tr_toolCallId e.2).
Proof.
  intros Hlast Hparts Hfair He. apply elem_of_tagged in He.
  destruct (ps !! e.1) as [p|] eqn:Hp.
  - exists p. split; [done|].
    rewrite (pass_fair_written _ _ _ _ _ _ _ p Hlast Hparts Hfair Hp) in He.
    by eapply callback_writes_id.
  - apply lookup_ge_None in Hp.
    rewrite (pass_written_outside _ _ _ _ _ _ Hlast Hparts _ Hp) in He.
    by apply elem_of_nil in He.
Qed.

(** * The properties of the reconciliation pass *)

(** C1 (as amended).  An approved part whose tool name leads to a resolver
    function.  The pass completes normally, the parts of the last message
    it returns are the reconciled parts, siblings included.  When the
    context can be built ([convertToCoreMessages] returns), the function is
    called exactly once, with the arguments of the part and that context;
    the value its promise is fulfilled with becomes the new result; if the
    promise is rejected, or the function throws, the new result is the
    string ["Error executing tool: " ++ error].  When the context cannot be
    built, the function is not called and the new result is the string
    ["Error executing tool: " ++ error] for the error of the conversion. *)
Theorem approved_part_runs_resolver_once
    (dataStream : list DataStreamPart) (messages : list Message)
    (executions : executions_t) (schedule : list nat)
    (lastMessage : Message) (ps : list UIPart) (i : nat)
    (step : option Z) (c : ToolCall) (f : resolver) :
  last messages = Some lastMessage →
  parts lastMessage = Some ps →
  ps !! i
  = Some (ToolInvocationUIPart (result step c (VString (YES APPROVAL)))) →
  executions !! toolName c = Some (callable f) →
  settles messages executions ps schedule →
  let r := processToolCalls dataStream messages executions schedule in
  ∃ ps',
    completed r
    = Fulfilled (slice_0_m1 messages ++ [with_parts lastMessage ps'])
    ∧ returned_parts r = Some ps'
    ∧ (∀ j q, ps !! j = Some q →
         ps' !! j = Some (reconcile messages executions q))
    ∧ (∀ core, convertToCoreMessages messages = inr core →
         let outcome := f (args c) (options_for core c) in
         tagged i (run_calls r)
         = [ {| inv_toolName := toolName c; inv_args := args c;
                inv_options := options_for core c |} ]
         ∧ (∀ v, outcome = promised (fulfilled v) →
              ps' !! i = Some (ToolInvocationUIPart (result step c v)))
         ∧ (∀ e, outcome = promised (rejected e) ∨ outcome = thrown e →
              ∃ s,
                ps' !! i
                = Some (ToolInvocationUIPart (result step c (VString s)))
                ∧ s = "Error executing tool: " +:+ exn_to_string e
                ∧ contains s (exn_to_string e)))
    ∧ (∀ e, convertToCoreMessages messages = inl e →
         tagged i (run_calls r) = []
         ∧ ps' !! i
           = Some (ToolInvocationUIPart
                     (result step c
                        (VString
                           ("Error executing tool: " +:+ exn_to_string e))))).
Proof.
  intros Hlast Hparts Hp Hf Hfair r.
  exists (reconcile messages executions <$> ps).
  split; [by apply pass_fair_completed|].
  split; [by eapply pass_fair_returned_parts|].
  split; [intros j q Hq; by rewrite list_lookup_fmap, Hq|].
  rewrite (reconcile_lookup _ _ _ _ _ Hp). unfold reconcile.
  subst r. rewrite (pass_calls _ _ _ _ _ _ Hlast Hparts), Hp. simpl.
  split.
  - intros core Hcore.
    destruct (f (args c) (options_for core c)) as [e|promise] eqn:Hcall.
    + rewrite (callback_thrown _ _ _ _ f core e) by done. simpl.
      split; [done|]. split; [done|].
      intros e' [He|He]; simplify_eq.
      exists ("Error executing tool: " +:+ exn_to_string e').
      split; [done|]. split; [done|]. apply contains_suffix.
    + rewrite (callback_approved _ _ _ _ f core promise) by done. simpl.
      split; [done|]. split.
      * intros v Hv. by simplify_eq.
      * intros e' [He|He]; simplify_eq.
        exists ("Error executing tool: " +:+ exn_to_string e').
        split; [done|]. split; [done|]. apply contains_suffix.
  - intros e Hcore.
    by rewrite (callback_conversion_failed _ _ _ _ f e).
Qed.

(** C2.  A denied part whose tool name is a property of [executions]: no
    resolver is called for it and its new result, in the last message of
    the returned transcript, is the fixed denial message.  The two
    sentinels are distinct constants. *)
Theorem denied_part_short_circuits
    (dataStream : list DataStreamPart) (messages : list Message)
    (executions : executions_t) (schedule : list nat)
    (lastMessage : Message) (ps : list UIPart) (i : nat)
    (step : option Z) (c : ToolCall) :
  YES APPROVAL ≠ NO APPROVAL →
  last messages = Some lastMessage →
  parts lastMessage = Some ps →
  ps !! i
  = Some (ToolInvocationUIPart (result step c (VString (NO APPROVAL)))) →
  is_Some (executions !! toolName c) →
  settles messages executions ps schedule →
  let r := processToolCalls dataStream messages executions schedule in
  tagged i (run_calls r) = []
  ∧ ∃ ps',
      completed r
      = Fulfilled (slice_0_m1 messages ++ [with_parts lastMessage ps'])
      ∧ returned_parts r = Some ps'
      ∧ ps' !! i
        = Some (ToolInvocationUIPart
                  (result step c
                     (VString "Error: User denied access to tool execution"))).
Proof.
  intros Hne Hlast Hparts Hp Hin Hfair r. split.
  - subst r. rewrite (pass_calls _ _ _ _ _ _ Hlast Hparts), Hp. simpl.
    by rewrite callback_denied.
  - exists (reconcile messages executions <$> ps).
    split; [by apply pass_fair_completed|].
    split; [by eapply pass_fair_returned_parts|].
    rewrite (reconcile_lookup _ _ _ _ _ Hp). unfold reconcile.
    by rewrite callback_denied.
Qed.

(** C3 (as amended).  An approved part in ['result'] state.  When the tool
    name is no property of [executions], neither own nor inherited
    ([toolName in executions] is false), the part comes back unchanged,
    without a call and without a write.  When the property is there and
    its value is [undefined], the part gets the result
    ["Error: No execute function found on tool"], which is written to the
    data stream once, and no resolver is called. *)
Theorem approved_part_without_function
    (dataStream : list DataStreamPart) (messages : list Message)
    (executions : executions_t) (schedule : list nat)
    (lastMessage : Message) (ps : list UIPart) (i : nat)
    (step : option Z) (c : ToolCall) :
  last messages = Some lastMessage →
  parts lastMessage = Some ps →
  ps !! i
  = Some (ToolInvocationUIPart (result step c (VString (YES APPROVAL)))) →
  settles messages executions ps schedule →
  let r := processToolCalls dataStream messages executions schedule in
  let msg := VString "Error: No execute function found on tool" in
  ∃ ps',
    completed r
    = Fulfilled (slice_0_m1 messages ++ [with_parts lastMessage ps'])
    ∧ returned_parts r = Some ps'
    ∧ (executions !! toolName c = None →
         ps' !! i = ps !! i
         ∧ tagged i (run_calls r) = []
         ∧ tagged i (run_written r) = [])
    ∧ (executions !! toolName c = Some (not_callable false) →
         ps' !! i = Some (ToolInvocationUIPart (result step c msg))
         ∧ tagged i (run_calls r) = []
         ∧ tagged i (run_written r) = [tool_result (toolCallId c) msg]).
Proof.
  intros Hlast Hparts Hp Hfair r msg.
  exists (reconcile messages executions <$> ps).
  split; [by apply pass_fair_completed|].
  split; [by eapply pass_fair_returned_parts|].
  subst r. rewrite (reconcile_lookup _ _ _ _ _ Hp). unfold reconcile.
  rewrite (pass_fair_written _ _ _ _ _ _ _ _ Hlast Hparts Hfair Hp).
  rewrite (pass_calls _ _ _ _ _ _ Hlast Hparts), Hp. simpl.
  split; intros Hex.
  - by rewrite callback_unlisted.
  - by rewrite callback_no_function.
Qed.

(** C4 (what the code does).  A part that is not a tool invocation, or
    whose tool name is no property of [executions], own or inherited, or
    whose state is not ['result'], is returned as it was received, whatever
    the other parts are; no resolver is called and nothing is written for
    it.  But a part whose tool name is not a key of [executions] and is
    inherited through the prototype chain (["constructor"], ["toString"],
    ...) is not left alone: when it carries a decision it is rewritten
    and its new result is written to the data stream; a denial gives the
    denial message, an approval calls the inherited function as the
    resolver. *)
Theorem inherited_tool_name_is_not_skipped
    (dataStream : list DataStreamPart) (messages : list Message)
    (executions : executions_t) (schedule : list nat)
    (lastMessage : Message) (ps : list UIPart) (i : nat) (p : UIPart) :
  last messages = Some lastMessage →
  parts lastMessage = Some ps →
  ps !! i = Some p →
  settles messages executions ps schedule →
  let r := processToolCalls dataStream messages executions schedule in
  ∃ ps',
    completed r
    = Fulfilled (slice_0_m1 messages ++ [with_parts lastMessage ps'])
    ∧ returned_parts r = Some ps'
    ∧ (skipped executions p →
         ps' !! i = Some p
         ∧ tagged i (run_calls r) = []
         ∧ tagged i (run_written r) = [])
    ∧ (∀ step c r0,
         p = ToolInvocationUIPart (result step c r0) →
         carries_decision p = true →
         own_properties executions !! toolName c = None →
         is_Some (inherited_properties executions !! toolName c) →
         ∃ res,
           ps' !! i = Some (ToolInvocationUIPart (result step c res))
           ∧ tagged i (run_written r) = [tool_result (toolCallId c) res]
           ∧ (YES APPROVAL ≠ NO APPROVAL → r0 = VString (NO APPROVAL) →
                res = VString "Error: User denied access to tool execution")
           ∧ (∀ f core promise,
                r0 = VString (YES APPROVAL) →
                inherited_properties executions !! toolName c
                = Some (callable f) →
                convertToCoreMessages messages = inr core →
                f (args c) (options_for core c) = promised promise →
                res = try_result promise
                ∧ tagged i (run_calls r)
                  = [ {| inv_toolName := toolName c; inv_args := args c;
                         inv_options := options_for core c |} ])).
Proof.
  intros Hlast Hparts Hp Hfair r.
  exists (reconcile messages executions <$> ps).
  split; [by apply pass_fair_completed|].
  split; [by eapply pass_fair_returned_parts|].
  subst r. rewrite (reconcile_lookup _ _ _ _ _ Hp). unfold reconcile.
  rewrite (pass_fair_written _ _ _ _ _ _ _ _ Hlast Hparts Hfair Hp).
  rewrite (pass_calls _ _ _ _ _ _ Hlast Hparts), Hp. simpl.
  split.
  - intros Hskip.
    assert (callback messages executions p = Returned [] [] p) as ->; [|done].
    destruct p as [ti|t b]; [|done]. destruct Hskip as [Hnone|Hst].
    + by apply callback_unlisted.
    + by apply callback_not_result.
  - intros step c r0 -> Hdec Hown Hinh.
    assert (is_Some (executions !! toolName c)) as Hin
      by by rewrite lookup_inherited_property.
    assert (to_rewrite executions
              (ToolInvocationUIPart (result step c r0)) = true) as Hrw.
    { unfold to_rewrite. rewrite Hdec, andb_true_r.
      by apply isValidToolName_true. }
    destruct (callback_to_rewrite messages executions _ Hrw)
      as (step' & c' & r' & res & Heq & Hfin & Hwr).
    injection Heq as <- <- <-. exists res.
    split; [by rewrite Hfin|]. split; [done|]. split.
    + intros Hne ->. rewrite callback_denied in Hfin by done.
      simpl in Hfin. by injection Hfin as <-.
    + intros f core promise -> Hf Hcore Hcall.
      rewrite <-lookup_inherited_property in Hf by done.
      rewrite (callback_approved _ _ _ _ f core promise) in Hfin |- * by done.
      simpl in Hfin. injection Hfin as <-. done.
Qed.

(** C5.  The last message of the returned transcript has as many parts as
    the one of the input, and its [i]-th part is the reconciliation of the
    [i]-th input part, in whatever order the resolver promises settle. *)
Theorem parts_order_preserved
    (dataStream : list DataStreamPart) (messages : list Message)
    (executions : executions_t) (schedule : list nat)
    (lastMessage : Message) (ps : list UIPart) :
  last messages = Some lastMessage →
  parts lastMessage = Some ps →
  settles messages executions ps schedule →
  let r := processToolCalls dataStream messages executions schedule in
  ∃ ps',
    completed r
    = Fulfilled (slice_0_m1 messages ++ [with_parts lastMessage ps'])
    ∧ returned_parts r = Some ps'
    ∧ length ps' = length ps
    ∧ ∀ i p, ps !! i = Some p →
        ps' !! i = Some (reconcile messages executions p).
Proof.
  intros Hlast Hparts Hfair r.
  exists (reconcile messages executions <$> ps).
  split; [by apply pass_fair_completed|].
  split; [by eapply pass_fair_returned_parts|].
  split; [by rewrite length_fmap|].
  intros i p Hp. by apply reconcile_lookup.
Qed.

(** C6.  For a non-empty transcript the returned transcript has the length
    of the input, agrees with it on every message but the last, and its
    last message has the [id], [role], [content], [createdAt] and remaining
    properties of the input's last message. *)
Theorem transcript_frame
    (dataStream : list DataStreamPart) (messages : list Message)
    (executions : executions_t) (schedule : list nat)
    (lastMessage : Message) :
  last messages = Some lastMessage →
  (∀ ps, parts lastMessage = Some ps →
         settles messages executions ps schedule) →
  ∃ out lastMessage',
    completed (processToolCalls dataStream messages executions schedule)
    = Fulfilled out
    ∧ length out = length messages
    ∧ (∀ j, j < length messages - 1 → out !! j = messages !! j)
    ∧ last out = Some lastMessage'
    ∧ id lastMessage' = id lastMessage
    ∧ role lastMessage' = role lastMessage
    ∧ content lastMessage' = content lastMessage
    ∧ createdAt lastMessage' = createdAt lastMessage
    ∧ others lastMessage' = others lastMessage.
Proof.
  intros Hlast Hfair.
  destruct (parts lastMessage) as [ps|] eqn:Hparts.
  - exists (slice_0_m1 messages
            ++ [with_parts lastMessage (reconcile messages executions <$> ps)]).
    exists (with_parts lastMessage (reconcile messages executions <$> ps)).
    split; [apply pass_fair_completed; auto|].
    apply last_Some in Hlast as [l ->]. rewrite slice_0_m1_snoc.
    rewrite !length_app. simpl. split; [done|]. split.
    + intros j Hj. rewrite !lookup_app_l by lia. done.
    + by rewrite last_snoc.
  - exists messages, lastMessage. split; [|done].
    unfold processToolCalls. by rewrite Hlast, Hparts.
Qed.

(** C7.  When no part of the last message is a tool invocation in
    ['result'] state carrying a sentinel, a pass returns the transcript it
    was given, calls nothing and writes nothing; a second pass over the
    output of the first therefore returns it again.  In any transcript, a
    part in ['result'] state with a payload that is not a sentinel is not
    executed and comes back unchanged. *)
Theorem pass_idempotent
    (dataStream : list DataStreamPart) (messages : list Message)
    (executions : executions_t) (lastMessage : Message) :
  last messages = Some lastMessage →
  (∀ ps, parts lastMessage = Some ps →
         Forall (λ p, carries_decision p = false) ps) →
  (∀ schedule,
     processToolCalls dataStream messages executions schedule
     = {| completed := Fulfilled messages; dataStream_after := dataStream;
          run_calls := []; run_written := [] |})
  ∧ (∀ schedule1 schedule2 out1,
       let r1 := processToolCalls dataStream messages executions schedule1 in
       completed r1 = Fulfilled out1 →
       processToolCalls (dataStream_after r1) out1 executions schedule2
       = {| completed := Fulfilled out1; dataStream_after := dataStream;
            run_calls := []; run_written := [] |})
  ∧ (∀ (transcript : list Message) (m : Message) (ps : list UIPart)
       (schedule : list nat) (i : nat) (step : option Z) (c : ToolCall)
       (payload : value),
       let p := ToolInvocationUIPart (result step c payload) in
       let r := processToolCalls dataStream transcript executions schedule in
       last transcript = Some m →
       parts m = Some ps →
       ps !! i = Some p →
       carries_decision p = false →
       tagged i (run_calls r) = []
       ∧ tagged i (run_written r) = []
       ∧ (settles transcript executions ps schedule →
          ∃ ps',
            completed r
            = Fulfilled (slice_0_m1 transcript ++ [with_parts m ps'])
            ∧ ps' !! i = Some p)).
Proof.
  intros Hlast Hund. split; [|split].
  - intros schedule. by eapply pass_all_undecided.
  - intros schedule1 schedule2 out1 r1. subst r1.
    rewrite (pass_all_undecided _ _ _ schedule1 _ Hlast Hund). simpl.
    intros [= <-]. by eapply pass_all_undecided.
  - intros transcript m ps schedule i step c payload p r Hm Hps Hp Hnot.
    pose proof (callback_undecided transcript executions p Hnot) as Hcb.
    split; [|split].
    + subst r. rewrite (pass_calls _ _ _ _ _ _ Hm Hps), Hp. simpl.
      by rewrite Hcb.
    + subst r. by eapply pass_written_returned.
    + intros Hfair. exists (reconcile transcript executions <$> ps).
      split; [by apply pass_fair_completed|].
      rewrite (reconcile_lookup _ _ _ _ _ Hp). unfold reconcile.
      by rewrite Hcb.
Qed.

(** C8.  Every part that is rewritten (a decision is recorded and the tool
    name is a property of [executions], own or inherited) has exactly one
    [tool_result] written to the data stream by the time the pass returns;
    it carries the [toolCallId] of the part and the result stored in the
    rewritten part of the returned last message, and it is the only write
    under that identifier when no other part shares it.  A part that is
    passed through has no write. *)
Theorem one_event_per_rewritten_part
    (dataStream : list DataStreamPart) (messages : list Message)
    (executions : executions_t) (schedule : list nat)
    (lastMessage : Message) (ps : list UIPart) (i : nat) (p : UIPart) :
  last messages = Some lastMessage →
  parts lastMessage = Some ps →
  ps !! i = Some p →
  settles messages executions ps schedule →
  let r := processToolCalls dataStream messages executions schedule in
  dataStream_after r = dataStream ++ (snd <$> run_written r)
  ∧ ∃ ps',
      completed r
      = Fulfilled (slice_0_m1 messages ++ [with_parts lastMessage ps'])
      ∧ returned_parts r = Some ps'
      ∧ (to_rewrite executions p = true →
           ∃ step c res,
             part_toolCallId p = Some (toolCallId c)
             ∧ ps' !! i = Some (ToolInvocationUIPart (result step c res))
             ∧ tagged i (run_written r) = [tool_result (toolCallId c) res]
             ∧ ((∀ j q, ps !! j = Some q →
                   part_toolCallId q = Some (toolCallId c) → j = i) →
                filter (λ d, tr_toolCallId d = toolCallId c)
                  (snd <$> run_written r)
                = [tool_result (toolCallId c) res]))
      ∧ (to_rewrite executions p = false →
           ps' !! i = Some p ∧ tagged i (run_written r) = []).
Proof.
  intros Hlast Hparts Hp Hfair r.
  split; [by eapply pass_stream|].
  exists (reconcile messages executions <$> ps).
  split; [by apply pass_fair_completed|].
  split; [by eapply pass_fair_returned_parts|].
  pose proof (pass_fair_written dataStream messages executions schedule
                _ _ _ _ Hlast Hparts Hfair Hp) as Hw.
  rewrite (reconcile_lookup _ _ _ _ _ Hp). unfold reconcile.
  split; intros Hrw.
  - destruct (callback_to_rewrite messages executions p Hrw)
      as (step & c & r0 & res & -> & Hfin & Hwr).
    exists step, c, res. rewrite Hfin. subst r. rewrite Hw, Hwr.
    split; [done|]. split; [done|]. split; [done|].
    intros Huniq. rewrite (filter_tagged _ i).
    + rewrite Hw, Hwr. by rewrite filter_cons_True, filter_nil.
    + intros e He Heq.
      destruct (pass_written_ids _ _ _ _ _ _ _ Hlast Hparts Hfair He)
        as (q & Hq & Hid).
      apply (Huniq _ q Hq). by rewrite Hid, Heq.
  - subst r. rewrite Hw.
    by rewrite (callback_not_to_rewrite _ _ _ Hrw).
Qed.

(** C9.  When the last message of a non-empty transcript has no parts
    collection, the pass returns the very transcript it was given, calls no
    resolver and writes nothing to the data stream. *)
Theorem no_parts_transcript_unchanged
    (dataStream : list DataStreamPart) (messages : list Message)
    (executions : executions_t) (schedule : list nat)
    (lastMessage : Message) :
  last messages = Some lastMessage →
  parts lastMessage = None →
  processToolCalls dataStream messages executions schedule
  = {| completed := Fulfilled messages; dataStream_after := dataStream;
       run_calls := []; run_written := [] |}.
Proof.
  intros Hlast Hparts. unfold processToolCalls. by rewrite Hlast, Hparts.
Qed.

(** C10.  On the empty transcript reading [parts] of the last message
    faults: the promise is rejected with a [TypeError].  On a non-empty
    transcript the last message exists and the promise is never rejected. *)
Theorem last_message_access
    (dataStream : list DataStreamPart) (executions : executions_t)
    (schedule : list nat) :
  completed (processToolCalls dataStream [] executions schedule)
  = Rejected TypeError_parts
  ∧ ∀ messages, messages ≠ [] →
      is_Some (last messages)
      ∧ ∀ e, completed
               (processToolCalls dataStream messages executions schedule)
             ≠ Rejected e.
Proof.
  split; [done|]. intros messages Hne.
  apply last_is_Some in Hne as Hsome. split; [done|].
  destruct Hsome as [m Hm]. intros e. unfold processToolCalls. rewrite Hm.
  destruct (parts m); simpl; [|done]. by destruct (promise_all _).
Qed.

(** * Further properties of the pass *)

(** X1.  Every resolver call of a pass is the call of an approved part of
    the last message, in ['result'] state, whose tool name leads to a
    function, in [executions] itself or up its prototype chain; it is made
    after the context has been built, with the arguments and the
    identifier of that part, whatever the order in which promises settle.
    No invocation of an earlier message is executed. *)
Theorem calls_only_for_approved_parts
    (dataStream : list DataStreamPart) (messages : list Message)
    (executions : executions_t) (schedule : list nat)
    (lastMessage : Message) (ps : list UIPart) (i : nat) (inv : invocation) :
  last messages = Some lastMessage →
  parts lastMessage = Some ps →
  (i, inv) ∈ run_calls (processToolCalls dataStream messages executions schedule) →
  ∃ step c f core,
    ps !! i = Some (ToolInvocationUIPart (result step c (VString (YES APPROVAL))))
    ∧ executions !! toolName c = Some (callable f)
    ∧ convertToCoreMessages messages = inr core
    ∧ inv = {| inv_toolName := toolName c; inv_args := args c;
               inv_options := options_for core c |}.
Proof.
  intros Hlast Hparts Hin. apply elem_of_tagged in Hin. simpl in Hin.
  rewrite (pass_calls _ _ _ _ _ _ Hlast Hparts) in Hin.
  destruct (ps !! i) as [p|] eqn:Hp; simpl in Hin; [|by apply elem_of_nil in Hin].
  destruct (callback_calls _ _ _ _ Hin) as (step & c & f & core & -> & Hrest).
  by exists step, c, f, core.
Qed.

Lemma sorted_tags_concat_imap {A E : Type} (g : A → list E) (l : list A)
    (n : nat) :
  Forall (λ a, length (g a) ≤ 1) l →
  StronglySorted lt (fst <$> concat (imap (λ j a, tag (n + j) (g a)) l))
  ∧ Forall (λ i, n ≤ i) (fst <$> concat (imap (λ j a, tag (n + j) (g a)) l)).
Proof.
  intros Hone. revert n. induction l as [|a l IH]; intros n; simpl.
  { split; constructor. }
  apply Forall_cons in Hone as [Hone Hrest]. specialize (IH Hrest).
  rewrite (imap_ext _ (λ j b, tag (S n + j) (g b))); last first.
  { intros j b _. simpl. f_equal. lia. }
  destruct (IH (S n)) as [Hsorted Hge].
  assert (Forall (λ i, n < i)
            (fst <$> concat (imap (λ j b, tag (S n + j) (g b)) l))) as Hgt.
  { eapply Forall_impl; [exact Hge|]. simpl. lia. }
  destruct (g a) as [|x [|y ga]]; simpl in *; [| |lia].
  - split; [done|]. eapply Forall_impl; [exact Hgt|]. simpl. lia.
  - rewrite Nat.add_0_r. split.
    + by constructor.
    + constructor; [done|]. eapply Forall_impl; [exact Hgt|]. simpl. lia.
Qed.

(** X2.  The resolver calls are made during [parts.map], in the order of the
    parts, each part at most once: the log of calls is the same for every
    settling order and its part indices are strictly increasing. *)
Theorem calls_in_part_order
    (dataStream : list DataStreamPart) (messages : list Message)
    (executions : executions_t) (schedule schedule' : list nat)
    (lastMessage : Message) (ps : list UIPart) :
  last messages = Some lastMessage →
  parts lastMessage = Some ps →
  let r := processToolCalls dataStream messages executions schedule in
  let r' := processToolCalls dataStream messages executions schedule' in
  run_calls r = run_calls r'
  ∧ StronglySorted lt (fst <$> run_calls r).
Proof.
  intros Hlast Hparts r r'. subst r r'. unfold processToolCalls.
  rewrite Hlast, Hparts. simpl.
  destruct (pool_inv_run _ schedule _
    (pool_inv_spawn (callback messages executions <$> ps))) as (-> & _).
  destruct (pool_inv_run _ schedule' _
    (pool_inv_spawn (callback messages executions <$> ps))) as (-> & _).
  split; [done|]. simpl.
  apply (sorted_tags_concat_imap sync_calls _ 0).
  apply Forall_fmap, Forall_true. intros p. apply callback_calls_length.
Qed.

Lemma run_schedule_written (cs : list coroutine) (schedule seen : list nat)
    (pl : pool) :
  (∀ j promise k,
     tasks pl !! j = Some (Waiting promise k)
     ↔ (j ∉ seen) ∧ (∃ inv, cs !! j = Some (Suspended inv promise k))) →
  written (run_schedule schedule pl)
  = written pl ++ concat (resumed_writes cs <$> first_occurrences seen schedule).
Proof.
  revert seen pl. induction schedule as [|j schedule IH]; intros seen pl Hinv.
  { simpl. by rewrite app_nil_r. }
  simpl. destruct (decide (j ∈ seen)) as [Hseen|Hnew].
  - replace (settle pl j) with pl; [by apply IH|].
    unfold settle. destruct (tasks pl !! j) as [[q|promise k]|] eqn:Ht; try done.
    apply Hinv in Ht as [? _]. done.
  - rewrite (IH (j :: seen) (settle pl j)).
    + rewrite fmap_cons. simpl. rewrite app_assoc. f_equal.
      unfold settle, resumed_writes.
      destruct (tasks pl !! j) as [[q|promise k]|] eqn:Ht.
      * destruct (cs !! j) as [[m w q'|inv promise k]|] eqn:Hc;
          try (by rewrite app_nil_r).
        assert (tasks pl !! j = Some (Waiting promise k)) as Hw
          by (apply Hinv; eauto).
        congruence.
      * apply Hinv in Ht as [_ [inv ->]]. by destruct (k promise).
      * destruct (cs !! j) as [[m w q'|inv promise k]|] eqn:Hc;
          try (by rewrite app_nil_r).
        assert (tasks pl !! j = Some (Waiting promise k)) as Hw
          by (apply Hinv; eauto).
        congruence.
    + intros j' promise k. rewrite not_elem_of_cons.
      destruct (decide (j' = j)) as [->|Hne].
      * split; [|by intros [[? _] _]].
        unfold settle. destruct (tasks pl !! j) as [[q|promise' k']|] eqn:Ht;
          rewrite ?Ht; try done.
        destruct (k' promise'). simpl.
        rewrite list_lookup_insert_eq by (by eapply lookup_lt_Some). done.
      * destruct (settle_other pl j' j Hne) as [-> _].
        rewrite Hinv. tauto.
Qed.

(** X3.  The writes of a pass, in order: first the results of the
    callbacks that do not reach an [await] (denials, missing functions, a
    context that cannot be built, a resolver that throws before it returns
    a promise), in the order of the parts, written during [parts.map];
    then the result of each awaited promise, in the order in which the
    promises settle. *)
Theorem writes_in_settling_order
    (dataStream : list DataStreamPart) (messages : list Message)
    (executions : executions_t) (schedule : list nat)
    (lastMessage : Message) (ps : list UIPart) :
  last messages = Some lastMessage →
  parts lastMessage = Some ps →
  let r := processToolCalls dataStream messages executions schedule in
  let cs := callback messages executions <$> ps in
  run_written r
  = concat (imap (λ i c, tag i (sync_writes c)) cs)
    ++ concat (resumed_writes cs <$> first_occurrences [] schedule)
  ∧ dataStream_after r = dataStream ++ (snd <$> run_written r).
Proof.
  intros Hlast Hparts r cs. split; [|by eapply pass_stream].
  subst r cs. unfold processToolCalls. rewrite Hlast, Hparts. simpl.
  generalize (callback messages executions <$> ps). intros cs.
  rewrite (run_schedule_written cs schedule []); [done|].
  intros j promise k. simpl. rewrite list_lookup_fmap.
  destruct (cs !! j) as [[m w q|inv promise' k']|]; simpl.
  - split; [done|]. by intros [_ [inv ?]].
  - split.
    + intros Heq. simplify_eq. split; [apply not_elem_of_nil|by eexists].
    + intros [_ [inv' Heq]]. by simplify_eq.
  - split; [done|]. by intros [_ [inv ?]].
Qed.

(** The pool of a pass, for a part whose promise the schedule leaves
    unsettled. *)
Lemma pass_as_spawned (messages : list Message) (executions : executions_t)
    (schedule : list nat) (ps : list UIPart) (i : nat) (p : UIPart) :
  ps !! i = Some p → i ∉ schedule →
  as_spawned (callback messages executions p)
    (run_schedule schedule (spawn_all (callback messages executions <$> ps))) i.
Proof.
  intros Hp Hnot. apply as_spawned_run; [done|].
  destruct (pool_inv_spawn (callback messages executions <$> ps))
    as (_ & _ & _ & Hall).
  assert ((callback messages executions <$> ps) !! i
          = Some (callback messages executions p)) as Hc
    by by rewrite list_lookup_fmap, Hp.
  destruct (Hall i _ Hc) as [Hsp|[Ht Hw]]; [done|].
  destruct (callback messages executions p) as [m w q|inv promise k] eqn:Hcb;
    [done|].
  simpl in Ht. rewrite list_lookup_fmap, Hc in Ht. done.
Qed.

(** X4.  The result of a denial is on the data stream as soon as
    [parts.map] has run: it is there for every schedule, also one under
    which the pass never returns because some resolver promise stays
    unsettled. *)
Theorem denial_published_immediately
    (dataStream : list DataStreamPart) (messages : list Message)
    (executions : executions_t) (schedule : list nat)
    (lastMessage : Message) (ps : list UIPart) (i : nat)
    (step : option Z) (c : ToolCall) :
  YES APPROVAL ≠ NO APPROVAL →
  last messages = Some lastMessage →
  parts lastMessage = Some ps →
  ps !! i
  = Some (ToolInvocationUIPart (result step c (VString (NO APPROVAL)))) →
  is_Some (executions !! toolName c) →
  let r := processToolCalls dataStream messages executions schedule in
  let d :=
    tool_result (toolCallId c)
      (VString "Error: User denied access to tool execution") in
  tagged i (run_written r) = [d] ∧ d ∈ dataStream_after r.
Proof.
  intros Hne Hlast Hparts Hp Hin r d.
  assert (tagged i (run_written r) = [d]) as Hw.
  { eapply (pass_written_returned _ _ _ _ _ _ Hlast Hparts); [done|].
    by apply callback_denied. }
  split; [done|]. subst r.
  rewrite (pass_stream _ _ _ _ _ _ Hlast Hparts).
  apply elem_of_app. right.
  assert (d ∈ tagged i
            (run_written
               (processToolCalls dataStream messages executions schedule)))
    as Hd by (rewrite Hw; by left).
  unfold tagged in Hd. apply list_elem_of_omap in Hd as ([j d'] & Hin' & Hsome).
  simpl in Hsome. case_decide; simplify_eq.
  apply list_elem_of_fmap. by exists (i, d).
Qed.

(** X5.  While the promise that the resolver of an approved call has
    returned is unsettled the pass does not return: there is no timeout.
    The resolver has been called once by then and nothing is written for
    that part.  (The context could be built and the resolver did return a
    promise.) *)
Theorem unsettled_promise_keeps_pass_pending
    (dataStream : list DataStreamPart) (messages : list Message)
    (executions : executions_t) (schedule : list nat)
    (lastMessage : Message) (ps : list UIPart) (i : nat)
    (step : option Z) (c : ToolCall) (f : resolver)
    (core : list CoreMessage) (promise : settlement) :
  last messages = Some lastMessage →
  parts lastMessage = Some ps →
  ps !! i
  = Some (ToolInvocationUIPart (result step c (VString (YES APPROVAL)))) →
  executions !! toolName c = Some (callable f) →
  convertToCoreMessages messages = inr core →
  f (args c) (options_for core c) = promised promise →
  i ∉ schedule →
  let r := processToolCalls dataStream messages executions schedule in
  completed r = Pending
  ∧ returned_parts r = None
  ∧ tagged i (run_calls r)
    = [ {| inv_toolName := toolName c; inv_args := args c;
           inv_options := options_for core c |} ]
  ∧ tagged i (run_written r) = [].
Proof.
  intros Hlast Hparts Hp Hf Hcore Hcall Hnot r.
  pose proof (callback_approved messages executions step c f core promise
                Hf Hcore Hcall) as Hcb.
  assert (completed r = Pending) as Hpending
    by by eapply (pass_pending _ _ _ _ _ _ Hlast Hparts).
  split; [done|]. split; [|split].
  - unfold returned_parts. by rewrite Hpending.
  - subst r. rewrite (pass_calls _ _ _ _ _ _ Hlast Hparts), Hp. simpl.
    by rewrite Hcb.
  - subst r. unfold processToolCalls. rewrite Hlast, Hparts. simpl.
    destruct (pass_as_spawned messages executions schedule ps i _ Hp Hnot)
      as [_ ->].
    by rewrite Hcb.
Qed.

(** A pass over a last message none of whose parts is to be rewritten. *)
Lemma pass_nothing_to_rewrite (dataStream : list DataStreamPart)
    (messages : list Message) (executions : executions_t)
    (schedule : list nat) (lastMessage : Message) (ps : list UIPart) :
  last messages = Some lastMessage →
  parts lastMessage = Some ps →
  Forall (λ p, to_rewrite executions p = false) ps →
  processToolCalls dataStream messages executions schedule
  = {| completed := Fulfilled messages; dataStream_after := dataStream;
       run_calls := []; run_written := [] |}.
Proof.
  intros Hlast Hparts Hnone. unfold processToolCalls. rewrite Hlast, Hparts.
  rewrite (list_fmap_ext (callback messages executions)
             (λ p, Returned [] [] p) ps); last first.
  { intros j p Hp. apply callback_not_to_rewrite.
    rewrite Forall_lookup in Hnone. by eapply Hnone. }
  rewrite spawn_all_returned, run_schedule_settled; simpl.
  - assert (promise_all (Settled <$> ps) = Some ps) as ->
      by by apply mapM_fmap_Some.
    apply last_Some in Hlast as [l ->].
    by rewrite slice_0_m1_snoc, with_parts_same, app_nil_r.
  - apply Forall_fmap, Forall_true. intros p. by exists p.
Qed.

(** X6.  A second pass over the output of a pass returns that output, calls
    no resolver and writes nothing, provided no part produced by the first
    pass is again a decision for a tool of [executions] (no resolver
    returned a sentinel). *)
Theorem second_pass_is_identity
    (dataStream : list DataStreamPart) (messages : list Message)
    (executions : executions_t) (schedule1 schedule2 : list nat)
    (lastMessage : Message) (ps : list UIPart) :
  last messages = Some lastMessage →
  parts lastMessage = Some ps →
  settles messages executions ps schedule1 →
  Forall (λ p, to_rewrite executions (reconcile messages executions p) = false)
    ps →
  let r1 := processToolCalls dataStream messages executions schedule1 in
  ∃ out1,
    completed r1 = Fulfilled out1
    ∧ processToolCalls (dataStream_after r1) out1 executions schedule2
      = {| completed := Fulfilled out1;
           dataStream_after := dataStream_after r1;
           run_calls := []; run_written := [] |}.
Proof.
  intros Hlast Hparts Hfair Hnone r1. eexists. split.
  { by apply pass_fair_completed. }
  eapply pass_nothing_to_rewrite.
  - apply last_snoc.
  - done.
  - by apply Forall_fmap.
Qed.

Lemma sum_list_indicator (f : nat → nat) (a n k : nat) :
  k ≤ a < k + n →
  sum_list ((λ i, f i + (if decide (a = i) then 1 else 0)) <$> seq k n)
  = S (sum_list (f <$> seq k n)).
Proof.
  revert k. induction n as [|n IH]; intros k Ha; [lia|].
  rewrite <-cons_seq, !fmap_cons. cbn [sum_list_with Datatypes.id].
  destruct (decide (a = k)) as [->|Hne].
  - rewrite (list_fmap_ext
               (λ i, f i + (if decide (k = i) then 1 else 0)) f
               (seq (S k) n)); [unfold Datatypes.id; lia|].
    intros j i Hi. apply lookup_seq in Hi as [-> _].
    rewrite decide_False by lia. apply Nat.add_0_r.
  - rewrite IH by lia. unfold Datatypes.id. lia.
Qed.

(** A tagged log is made of the entries of its tags. *)
Lemma length_tagged_sum {E : Type} (l : list (nat * E)) (n : nat) :
  (∀ e, e ∈ l → e.1 < n) →
  length l = sum_list ((λ i, length (tagged i l)) <$> seq 0 n).
Proof.
  induction l as [|e l IH]; intros Hlt.
  - generalize (seq 0 n). intros s.
    induction s as [|i s IHs]; [done|].
    rewrite fmap_cons. cbn [sum_list_with]. by rewrite <-IHs.
  - cbn [length]. rewrite IH by (intros e' He'; apply Hlt; by right).
    rewrite <-(sum_list_indicator _ e.1 n 0)
      by (split; [lia|apply Hlt; by left]).
    f_equal. apply list_fmap_ext. intros j i _. unfold tagged. cbn [omap list_omap].
    destruct (decide (e.1 = i)); cbn [length]; lia.
Qed.

Lemma sum_list_lookup (f : UIPart → nat) (l : list UIPart) (k : nat) :
  sum_list ((λ i, from_option f 0 (l !! (i - k))) <$> seq k (length l))
  = sum_list (f <$> l).
Proof.
  revert k. induction l as [|a l IH]; intros k; [done|].
  cbn [length]. rewrite <-cons_seq, !fmap_cons. cbn [sum_list_with].
  rewrite <-(IH (S k)), Nat.sub_diag. f_equal. f_equal.
  apply list_fmap_ext. intros j i Hi.
  apply lookup_seq in Hi as [-> _].
  replace (S k + j - k) with (S (S k + j - S k)) by lia. done.
Qed.

(** X7.  When the pass returns, the data stream has grown by exactly one
    entry per part to rewrite (a decision is recorded and the tool name is
    a property of [executions], own or inherited): nothing is written for
    any other part and nothing is written twice. *)
Theorem write_count
    (dataStream : list DataStreamPart) (messages : list Message)
    (executions : executions_t) (schedule : list nat)
    (lastMessage : Message) (ps : list UIPart) :
  last messages = Some lastMessage →
  parts lastMessage = Some ps →
  settles messages executions ps schedule →
  length (dataStream_after
            (processToolCalls dataStream messages executions schedule))
  = length dataStream
    + length (filter (λ p, to_rewrite executions p = true) ps).
Proof.
  intros Hlast Hparts Hfair.
  rewrite (pass_stream _ _ _ _ _ _ Hlast Hparts).
  rewrite length_app, length_fmap. f_equal.
  rewrite (length_tagged_sum _ (length ps)); last first.
  { intros e He. destruct (decide (e.1 < length ps)) as [|Hge]; [done|].
    apply elem_of_tagged in He.
    rewrite (pass_written_outside _ _ _ _ _ _ Hlast Hparts) in He by lia.
    by apply elem_of_nil in He. }
  rewrite (list_fmap_ext _
    (λ i, from_option
            (λ p, length (final_writes (callback messages executions p)))
            0 (ps !! (i - 0))) (seq 0 (length ps))); last first.
  { intros j i Hi. apply lookup_seq in Hi as [-> Hj]. simpl.
    rewrite Nat.sub_0_r.
    destruct (lookup_lt_is_Some_2 ps j Hj) as [p Hp]. rewrite Hp. simpl.
    by rewrite (pass_fair_written _ _ _ _ _ _ _ _ Hlast Hparts Hfair Hp). }
  rewrite sum_list_lookup. clear Hparts Hfair.
  induction ps as [|p ps IH]; [done|].
  rewrite fmap_cons. cbn [sum_list_with]. rewrite IH.
  rewrite filter_cons. destruct (to_rewrite executions p) eqn:Hrw.
  - destruct (callback_to_rewrite messages executions p Hrw)
      as (step & c & r0 & res & _ & _ & ->).
    by rewrite decide_True.
  - rewrite (callback_not_to_rewrite _ _ _ Hrw).
    by rewrite decide_False.
Qed.

(** X8.  With the [executions] of [tools.ts], an approved weather call
    whose arguments carry a string [city] ends, when the context can be
    built, with the weather report for that city as its result in the last
    message of the returned transcript, and that report is what is written
    to the data stream: never an error text. *)
Theorem approved_weather_call_gets_report
    (Number_toString : Z → string) (builtin : string → resolver)
    (dataStream : list DataStreamPart) (messages : list Message)
    (schedule : list nat)
    (lastMessage : Message) (ps : list UIPart) (i : nat)
    (step : option Z) (c : ToolCall) (fields : list (string * value))
    (city : string) (core : list CoreMessage) :
  let executions := tools_executions Number_toString builtin in
  last messages = Some lastMessage →
  parts lastMessage = Some ps →
  ps !! i
  = Some (ToolInvocationUIPart (result step c (VString (YES APPROVAL)))) →
  toolName c = "getWeatherInformation" →
  args c = VObject fields →
  own_property fields "city" = Some (VString city) →
  convertToCoreMessages messages = inr core →
  settles messages executions ps schedule →
  let r := processToolCalls dataStream messages executions schedule in
  let report := VString (weather_report city) in
  ∃ ps',
    completed r
    = Fulfilled (slice_0_m1 messages ++ [with_parts lastMessage ps'])
    ∧ returned_parts r = Some ps'
    ∧ ps' !! i = Some (ToolInvocationUIPart (result step c report))
    ∧ tagged i (run_written r) = [tool_result (toolCallId c) report].
Proof.
  intros executions Hlast Hparts Hp Hname Hargs Hcity Hcore Hfair r report.
  assert (getWeatherInformation_execute Number_toString (args c)
          = fulfilled report) as Hrun.
  { rewrite Hargs. unfold getWeatherInformation_execute. simpl.
    by rewrite Hcity. }
  assert (callback messages executions
            (ToolInvocationUIPart (result step c (VString (YES APPROVAL))))
          = Suspended
              {| inv_toolName := toolName c; inv_args := args c;
                 inv_options := options_for core c |}
              (fulfilled report)
              (λ s, forward step c (try_result s))) as Hcb.
  { apply (callback_approved _ _ _ _
             (λ args _,
                promised (getWeatherInformation_execute Number_toString args))
             core).
    - rewrite Hname. by apply lookup_own_property.
    - done.
    - by rewrite Hrun. }
  exists (reconcile messages executions <$> ps).
  split; [by apply pass_fair_completed|].
  split; [by eapply pass_fair_returned_parts|]. split.
  - rewrite (reconcile_lookup _ _ _ _ _ Hp). unfold reconcile.
    by rewrite Hcb.
  - subst r. rewrite (pass_fair_written _ _ _ _ _ _ _ _ Hlast Hparts Hfair Hp).
    by rewrite Hcb.
Qed.

(** X9.  The transcript that [executeTask] saves ends with a user message
    without parts: a pass over it returns it as it is, calls no resolver and
    writes nothing, whatever decisions the earlier messages carry; and that
    new message is the last user message. *)
Theorem scheduled_task_turn_is_passed_through
    (dataStream : list DataStreamPart) (messages : list Message)
    (executions : executions_t) (schedule : list nat)
    (newId : string) (now : Z) (description : string) :
  let saved := executeTask messages newId now description in
  processToolCalls dataStream saved executions schedule
  = {| completed := Fulfilled saved; dataStream_after := dataStream;
       run_calls := []; run_written := [] |}
  ∧ ∃ m, lastUserMessage saved = Some m
         ∧ last saved = Some m
         ∧ content m = "Running scheduled task: " +:+ description.
Proof.
  intros saved. subst saved. unfold executeTask. split.
  - unfold processToolCalls. by rewrite last_snoc.
  - eexists. split; [|split; [apply last_snoc|done]].
    unfold lastUserMessage. rewrite filter_app, filter_cons_True by done.
    rewrite filter_nil. apply last_snoc.
Qed.

End reconciliation.

(** * The scenarios, run *)

(** The pass over [scenario_messages] when the webhook promise (part 2)
    settles before the weather promise (part 1): the two synchronous writes
    come first, then the writes of the resumed callbacks in settling
    order. *)
Example scenario_run :
  processToolCalls scenario_APPROVAL (λ ms, inr ms) [] scenario_messages
    scenario_executions [2; 1]
  = {| completed :=
         Fulfilled
           [scenario_user; with_parts scenario_assistant scenario_reconciled];
       dataStream_after :=
         [ tool_result "call_3"
             (VString "Error: User denied access to tool execution");
           tool_result "call_6"
             (VString "Error: No execute function found on tool");
           tool_result "call_2"
             (VString "Error executing tool: Error: upstream timeout");
           tool_result "call_1" (VString "Sunny in Lima") ];
       run_calls :=
         [ (1, {| inv_toolName := "getWeatherInformation";
                  inv_args := VObject [("city", VString "Lima")];
                  inv_options :=
                    {| ctx_messages := scenario_messages;
                       ctx_toolCallId := "call_1" |} |});
           (2, {| inv_toolName := "sendWebhook";
                  inv_args := VObject [("city", VString "Lima")];
                  inv_options :=
                    {| ctx_messages := scenario_messages;
                       ctx_toolCallId := "call_2" |} |}) ];
       run_written :=
         [ (3, tool_result "call_3"
                 (VString "Error: User denied access to tool execution"));
           (6, tool_result "call_6"
                 (VString "Error: No execute function found on tool"));
           (2, tool_result "call_2"
                 (VString "Error executing tool: Error: upstream timeout"));
           (1, tool_result "call_1" (VString "Sunny in Lima")) ] |}.
Proof. vm_compute. reflexivity. Qed.

(** The other settling order gives the same transcript and the last two
    writes swapped. *)
Example scenario_run_other_order :
  let r :=
    processToolCalls scenario_APPROVAL (λ ms, inr ms) [] scenario_messages
      scenario_executions [1; 2] in
  completed r
  = Fulfilled [scenario_user; with_parts scenario_assistant scenario_reconciled]
  ∧ tr_toolCallId <$> dataStream_after r
    = ["call_3"; "call_6"; "call_1"; "call_2"].
Proof. vm_compute. split; reflexivity. Qed.

(** While the weather promise has not settled the pass has not returned;
    the calls are made and three results are already on the stream. *)
Example scenario_run_pending :
  let r :=
    processToolCalls scenario_APPROVAL (λ ms, inr ms) [] scenario_messages
      scenario_executions [2] in
  completed r = Pending
  ∧ fst <$> run_calls r = [1; 2]
  ∧ tr_toolCallId <$> dataStream_after r = ["call_3"; "call_6"; "call_2"].
Proof. vm_compute. repeat split; reflexivity. Qed.

(** A context that cannot be built: next to the approved weather call the
    last message holds an invocation without a result, on which the
    conversion throws.  The resolver is not called; the error of the
    conversion becomes the result of the approved part, written during
    [parts.map]. *)
Example scenario_run_context_failure :
  processToolCalls scenario_APPROVAL strict_conversion []
    pending_sibling_messages scenario_executions []
  = {| completed :=
         Fulfilled
           [ scenario_user;
             {| id := "msg-2"; createdAt := None; content := "";
                role := assistant;
                parts :=
                  Some
                    [ ToolInvocationUIPart
                        (result None
                           (tool_call "call_1" "getWeatherInformation")
                           (VString
                              "Error executing tool: AI_MessageConversionError: ToolInvocation must have a result"));
                      ToolInvocationUIPart
                        (call None (tool_call "call_2" "getLocalTime")) ];
                others := [] |} ];
       dataStream_after :=
         [ tool_result "call_1"
             (VString
                "Error executing tool: AI_MessageConversionError: ToolInvocation must have a result") ];
       run_calls := [];
       run_written :=
         [ (0, tool_result "call_1"
                 (VString
                    "Error executing tool: AI_MessageConversionError: ToolInvocation must have a result")) ] |}.
Proof. vm_compute. reflexivity. Qed.

(** A resolver that throws before it returns a promise: the call is made,
    the callback does not suspend and the pass returns under the empty
    schedule. *)
Example scenario_run_resolver_throws :
  let executions : executions_object (CoreMessage := Message) :=
    {| own_properties :=
         {[ "getWeatherInformation" :=
              callable (throwing_resolver (JsError "RangeError" "no city")) ]};
       inherited_properties := Object_prototype scenario_builtin |} in
  let r :=
    processToolCalls scenario_APPROVAL (λ ms, inr ms) [] scenario_messages
      executions [] in
  fst <$> run_calls r = [1]
  ∧ dataStream_after r
    = [ tool_result "call_1"
          (VString "Error executing tool: RangeError: no city");
        tool_result "call_3"
          (VString "Error: User denied access to tool execution") ]
  ∧ ∃ out, completed r = Fulfilled out.
Proof. vm_compute. repeat split; try reflexivity. eexists. reflexivity. Qed.

(** Tool names that are no keys of the [executions] of [tools.ts] but
    names of [Object.prototype]: the approved part named ["toString"] has
    [Object.prototype.toString] called as its resolver, the denied part
    named ["constructor"] gets the denial message, and both results are
    written to the data stream. *)
Example scenario_run_inherited_names :
  let r :=
    processToolCalls scenario_APPROVAL (λ ms, inr ms) []
      inherited_name_messages (tools_executions pretty scenario_builtin) [0] in
  returned_parts r
  = Some
      [ ToolInvocationUIPart
          (result None (tool_call "call_1" "toString")
             (VString "[object Undefined]"));
        ToolInvocationUIPart
          (result None (tool_call "call_2" "constructor")
             (VString "Error: User denied access to tool execution")) ]
  ∧ fst <$> run_calls r = [0]
  ∧ dataStream_after r
    = [ tool_result "call_2"
          (VString "Error: User denied access to tool execution");
        tool_result "call_1" (VString "[object Undefined]") ].
Proof. vm_compute. repeat split; reflexivity. Qed.

(** * Instances of the statements *)

Lemma approved_part_runs_resolver_once_witness :
  let r :=
    processToolCalls scenario_APPROVAL (λ ms, inr ms) [] scenario_messages
      scenario_executions [2; 1] in
  settles scenario_APPROVAL (λ ms, inr ms) scenario_messages
    scenario_executions scenario_parts [2; 1]
  ∧ ∃ ps',
      returned_parts r = Some ps'
      ∧ tagged 2 (run_calls r)
        = [ {| inv_toolName := "sendWebhook";
               inv_args := VObject [("city", VString "Lima")];
               inv_options :=
                 {| ctx_messages := scenario_messages;
                    ctx_toolCallId := "call_2" |} |} ]
      ∧ ps' !! 2
        = Some (ToolInvocationUIPart
                  (result None (tool_call "call_2" "sendWebhook")
                     (VString "Error executing tool: Error: upstream timeout"))).
Proof.
  split; [reflexivity|].
  destruct (approved_part_runs_resolver_once scenario_APPROVAL (λ ms, inr ms)
    [] scenario_messages scenario_executions [2; 1] scenario_assistant
    scenario_parts 2 None (tool_call "call_2" "sendWebhook")
    (failing_resolver (JsError "Error" "upstream timeout"))
    eq_refl eq_refl eq_refl eq_refl eq_refl)
    as (ps' & _ & Hret & _ & Hok & _).
  exists ps'. split; [exact Hret|].
  destruct (Hok scenario_messages eq_refl) as (Hcalls & _ & Hrej).
  split; [exact Hcalls|].
  destruct (Hrej (JsError "Error" "upstream timeout") (or_introl eq_refl))
    as (s & Hs & -> & _).
  exact Hs.
Defined.

(** C1 as stated fails: the part is approved, its tool has a resolver
    function, and yet the function is not called once but not at all,
    because the context could not be built; the part gets an error text
    as its result although the resolver did not raise. *)
Lemma approved_part_resolver_not_called :
  let r :=
    processToolCalls scenario_APPROVAL strict_conversion []
      pending_sibling_messages scenario_executions [] in
  let p :=
    ToolInvocationUIPart
      (result None (tool_call "call_1" "getWeatherInformation")
         (VString (YES scenario_APPROVAL))) in
  pending_sibling_parts !! 0 = Some p
  ∧ own_properties (CoreMessage := Message) scenario_executions
      !! "getWeatherInformation"
    = Some (callable (fixed_resolver "Sunny in Lima"))
  ∧ run_calls r = []
  ∧ ∃ ps',
      returned_parts r = Some ps'
      ∧ ps' !! 0
        = Some (ToolInvocationUIPart
                  (result None (tool_call "call_1" "getWeatherInformation")
                     (VString
                        "Error executing tool: AI_MessageConversionError: ToolInvocation must have a result"))).
Proof.
  split; [reflexivity|]. split; [reflexivity|]. split; [by vm_compute|].
  eexists. split; [by vm_compute|]. reflexivity.
Qed.

Lemma denied_part_short_circuits_witness :
  let r :=
    processToolCalls scenario_APPROVAL (λ ms, inr ms) [] scenario_messages
      scenario_executions [2; 1] in
  settles scenario_APPROVAL (λ ms, inr ms) scenario_messages
    scenario_executions scenario_parts [2; 1]
  ∧ tagged 3 (run_calls r) = []
  ∧ ∃ ps',
      completed r
      = Fulfilled (slice_0_m1 scenario_messages
                   ++ [with_parts scenario_assistant ps'])
      ∧ returned_parts r = Some ps'
      ∧ ps' !! 3
        = Some (ToolInvocationUIPart
                  (result None (tool_call "call_3" "getWeatherInformation")
                     (VString "Error: User denied access to tool execution"))).
Proof.
  split; [reflexivity|].
  apply (denied_part_short_circuits scenario_APPROVAL (λ ms, inr ms) []
    scenario_messages scenario_executions [2; 1] scenario_assistant
    scenario_parts 3 None (tool_call "call_3" "getWeatherInformation"));
    try reflexivity.
  - vm_compute. discriminate.
  - vm_compute. eexists. reflexivity.
Defined.

(** C3 as stated fails: the property ["disabled"] carries no function, the
    part is approved and in ['result'] state, and yet it does not come back
    unchanged: its result becomes an error string, which is also written to
    the data stream. *)
Lemma approved_part_without_function_is_rewritten :
  let r :=
    processToolCalls scenario_APPROVAL (λ ms, inr ms) [] scenario_messages
      scenario_executions [2; 1] in
  let p :=
    ToolInvocationUIPart
      (result None (tool_call "call_6" "disabled")
         (VString (YES scenario_APPROVAL))) in
  scenario_parts !! 6 = Some p
  ∧ scenario_executions (CoreMessage := Message) !! "disabled"
    = Some (not_callable false)
  ∧ ∃ ps',
      returned_parts r = Some ps'
      ∧ ps' !! 6
        = Some (ToolInvocationUIPart
                  (result None (tool_call "call_6" "disabled")
                     (VString "Error: No execute function found on tool")))
      ∧ ps' !! 6 ≠ Some p
      ∧ tagged 6 (run_written r)
        = [tool_result "call_6"
             (VString "Error: No execute function found on tool")].
Proof.
  split; [reflexivity|]. split; [reflexivity|].
  exists scenario_reconciled. split; [by vm_compute|].
  split; [reflexivity|]. split; [|by vm_compute].
  vm_compute. discriminate.
Qed.

Lemma approved_part_without_function_witness :
  let r :=
    processToolCalls scenario_APPROVAL (λ ms, inr ms) [] scenario_messages
      scenario_executions [2; 1] in
  let msg := VString "Error: No execute function found on tool" in
  settles scenario_APPROVAL (λ ms, inr ms) scenario_messages
    scenario_executions scenario_parts [2; 1]
  ∧ scenario_executions (CoreMessage := Message) !! "getLocalTime" = None
  ∧ scenario_executions (CoreMessage := Message) !! "disabled"
    = Some (not_callable false)
  ∧ (∃ ps',
       returned_parts r = Some ps'
       ∧ ps' !! 5 = scenario_parts !! 5
       ∧ tagged 5 (run_calls r) = []
       ∧ tagged 5 (run_written r) = [])
  ∧ (∃ ps',
       returned_parts r = Some ps'
       ∧ ps' !! 6
         = Some (ToolInvocationUIPart
                   (result None (tool_call "call_6" "disabled") msg))
       ∧ tagged 6 (run_calls r) = []
       ∧ tagged 6 (run_written r) = [tool_result "call_6" msg]).
Proof.
  split; [reflexivity|]. split; [reflexivity|]. split; [reflexivity|].
  split.
  - destruct (approved_part_without_function scenario_APPROVAL
      (λ ms, inr ms) [] scenario_messages scenario_executions [2; 1]
      scenario_assistant scenario_parts 5 None
      (tool_call "call_5" "getLocalTime") eq_refl eq_refl eq_refl eq_refl)
      as (ps' & _ & Hret & Hnone & _).
    exists ps'. split; [exact Hret|]. exact (Hnone eq_refl).
  - destruct (approved_part_without_function scenario_APPROVAL
      (λ ms, inr ms) [] scenario_messages scenario_executions [2; 1]
      scenario_assistant scenario_parts 6 None
      (tool_call "call_6" "disabled") eq_refl eq_refl eq_refl eq_refl)
      as (ps' & _ & Hret & _ & Hundef).
    exists ps'. split; [exact Hret|]. exact (Hundef eq_refl).
Defined.

Lemma inherited_tool_name_is_not_skipped_witness :
  let executions :=
    tools_executions (CoreMessage := Message) pretty scenario_builtin in
  let r :=
    processToolCalls scenario_APPROVAL (λ ms, inr ms) []
      inherited_name_messages executions [0] in
  let denial := VString "Error: User denied access to tool execution" in
  settles scenario_APPROVAL (λ ms, inr ms) inherited_name_messages executions
    inherited_name_parts [0]
  ∧ own_properties executions !! "constructor" = None
  ∧ ∃ ps',
      returned_parts r = Some ps'
      ∧ ps' !! 1
        = Some (ToolInvocationUIPart
                  (result None (tool_call "call_2" "constructor") denial))
      ∧ tagged 1 (run_written r) = [tool_result "call_2" denial].
Proof.
  split; [reflexivity|]. split; [reflexivity|].
  destruct (inherited_tool_name_is_not_skipped scenario_APPROVAL
    (λ ms, inr ms) [] inherited_name_messages
    (tools_executions pretty scenario_builtin) [0] inherited_name_assistant
    inherited_name_parts 1 _ eq_refl eq_refl eq_refl eq_refl)
    as (ps' & _ & Hret & _ & Hinherited).
  exists ps'. split; [exact Hret|].
  destruct (Hinherited None (tool_call "call_2" "constructor")
              (VString "APPROVAL_NO") eq_refl eq_refl eq_refl
              (ex_intro _ _ eq_refl))
    as (res & Hpart & Hwritten & Hdenied & _).
  assert (YES scenario_APPROVAL ≠ NO scenario_APPROVAL) as Hne
    by discriminate.
  rewrite (Hdenied Hne eq_refl) in Hpart, Hwritten.
  split; [exact Hpart|exact Hwritten].
Defined.

Lemma parts_order_preserved_witness :
  let r :=
    processToolCalls scenario_APPROVAL (λ ms, inr ms) [] scenario_messages
      scenario_executions [1; 2] in
  settles scenario_APPROVAL (λ ms, inr ms) scenario_messages
    scenario_executions scenario_parts [1; 2]
  ∧ ∃ ps',
      completed r
      = Fulfilled (slice_0_m1 scenario_messages
                   ++ [with_parts scenario_assistant ps'])
      ∧ returned_parts r = Some ps'
      ∧ length ps' = length scenario_parts
      ∧ ∀ i p, scenario_parts !! i = Some p →
          ps' !! i
          = Some (reconcile scenario_APPROVAL (λ ms, inr ms) scenario_messages
                    scenario_executions p).
Proof.
  split; [reflexivity|].
  exact (parts_order_preserved scenario_APPROVAL (λ ms, inr ms) []
    scenario_messages scenario_executions [1; 2] scenario_assistant
    scenario_parts eq_refl eq_refl eq_refl).
Defined.

Lemma transcript_frame_witness :
  ∃ out lastMessage',
    completed
      (processToolCalls scenario_APPROVAL (λ ms, inr ms) [] scenario_messages
         scenario_executions [2; 1])
    = Fulfilled out
    ∧ length out = length scenario_messages
    ∧ (∀ j, j < length scenario_messages - 1 →
         out !! j = scenario_messages !! j)
    ∧ last out = Some lastMessage'
    ∧ id lastMessage' = id scenario_assistant
    ∧ role lastMessage' = role scenario_assistant
    ∧ content lastMessage' = content scenario_assistant
    ∧ createdAt lastMessage' = createdAt scenario_assistant
    ∧ others lastMessage' = others scenario_assistant.
Proof.
  apply (transcript_frame scenario_APPROVAL (λ ms, inr ms) [] scenario_messages
    scenario_executions [2; 1] scenario_assistant eq_refl).
  intros ps Hps. injection Hps as <-. reflexivity.
Defined.

Lemma pass_idempotent_witness :
  Forall (λ p, carries_decision scenario_APPROVAL p = false)
    (default [] (parts settled_assistant))
  ∧ processToolCalls scenario_APPROVAL (λ ms, inr ms) [] settled_messages
      scenario_executions [1; 0]
    = {| completed := Fulfilled settled_messages; dataStream_after := [];
         run_calls := []; run_written := [] |}.
Proof.
  assert (Forall (λ p, carries_decision scenario_APPROVAL p = false)
            (default [] (parts settled_assistant))) as Hund
    by (repeat constructor).
  split; [exact Hund|].
  refine (proj1 (pass_idempotent scenario_APPROVAL (λ ms, inr ms) []
    settled_messages scenario_executions settled_assistant eq_refl _) [1; 0]).
  intros ps Hps. injection Hps as <-. exact Hund.
Defined.

Lemma one_event_per_rewritten_part_witness :
  let r :=
    processToolCalls scenario_APPROVAL (λ ms, inr ms) [] scenario_messages
      scenario_executions [2; 1] in
  settles scenario_APPROVAL (λ ms, inr ms) scenario_messages
    scenario_executions scenario_parts [2; 1]
  ∧ dataStream_after r = [] ++ (snd <$> run_written r)
  ∧ ∃ ps',
      returned_parts r = Some ps'
      ∧ ∃ step c res,
          ps' !! 1 = Some (ToolInvocationUIPart (result step c res))
          ∧ tagged 1 (run_written r) = [tool_result (toolCallId c) res].
Proof.
  split; [reflexivity|].
  destruct (one_event_per_rewritten_part scenario_APPROVAL (λ ms, inr ms) []
    scenario_messages scenario_executions [2; 1] scenario_assistant
    scenario_parts 1 _ eq_refl eq_refl eq_refl eq_refl)
    as (Hstream & ps' & _ & Hret & Hrewritten & _).
  split; [exact Hstream|]. exists ps'. split; [exact Hret|].
  destruct (Hrewritten eq_refl) as (step & c & res & _ & Hpart & Hwritten & _).
  exists step, c, res. split; [exact Hpart|exact Hwritten].
Defined.

Lemma no_parts_transcript_unchanged_witness :
  processToolCalls scenario_APPROVAL (λ ms, inr ms) [] [scenario_user]
    scenario_executions [0]
  = {| completed := Fulfilled [scenario_user]; dataStream_after := [];
       run_calls := []; run_written := [] |}.
Proof.
  exact (no_parts_transcript_unchanged scenario_APPROVAL (λ ms, inr ms) []
    [scenario_user] scenario_executions [0] scenario_user eq_refl eq_refl).
Defined.

Lemma last_message_access_witness :
  [scenario_user] ≠ []
  ∧ is_Some (last [scenario_user])
  ∧ ∀ e,
      completed
        (processToolCalls scenario_APPROVAL (λ ms, inr ms) [] [scenario_user]
           scenario_executions [])
      ≠ Rejected e.
Proof.
  assert ([scenario_user] ≠ []) as Hne by discriminate.
  split; [exact Hne|].
  exact (proj2 (last_message_access scenario_APPROVAL (λ ms, inr ms) []
    scenario_executions []) [scenario_user] Hne).
Defined.

(** * Properties of the tools *)

(** ** Strings and own properties *)

Lemma startsWith_paren_app (s : string) : startsWith_paren ("(" +:+ s) = true.
Proof. done. Qed.

Lemma endsWith_paren_app (s : string) : endsWith_paren (s +:+ ")") = true.
Proof.
  induction s as [|a s IH]; [done|].
  change (String a s +:+ ")") with (String a (s +:+ ")")).
  cbn [endsWith_paren]. destruct (s +:+ ")") eqn:Hs; [|done].
  by destruct s.
Qed.

Lemma wrapped_in_parens (s : string) :
  startsWith_paren ("(" +:+ s +:+ ")") && endsWith_paren ("(" +:+ s +:+ ")")
  = true.
Proof.
  rewrite startsWith_paren_app. simpl.
  apply (endsWith_paren_app (String "(" s)).
Qed.

Lemma string_app_assoc (a b c : string) :
  a +:+ (b +:+ c) = (a +:+ b) +:+ c.
Proof.
  induction a as [|x a IH]; [done|].
  change (String x (a +:+ (b +:+ c)) = String x ((a +:+ b) +:+ c)).
  by rewrite IH.
Qed.

Lemma string_app_inj_l (p s t : string) : p +:+ s = p +:+ t → s = t.
Proof.
  induction p as [|a p IH]; [done|].
  change (String a (p +:+ s) = String a (p +:+ t) → s = t).
  intros [= H]. by apply IH.
Qed.

Lemma own_property_set_eq (fields : list (string * value)) (key : string)
    (v : value) :
  is_Some (own_property fields key) →
  own_property (set_property fields key v) key = Some v.
Proof.
  induction fields as [|[k w] fields IH]; simpl; intros Hin.
  - by destruct Hin.
  - destruct (decide (k = key)) as [->|Hne]; simpl.
    + by rewrite decide_True.
    + rewrite decide_False by done. by apply IH.
Qed.

Lemma own_property_set_ne (fields : list (string * value)) (key k' : string)
    (v : value) :
  k' ≠ key →
  own_property (set_property fields key v) k' = own_property fields k'.
Proof.
  intros Hne. induction fields as [|[k w] fields IH]; simpl; [done|].
  destruct (decide (k = key)) as [->|Hk]; simpl.
  - by rewrite !decide_False by done.
  - destruct (decide (k = k')); [done|]. apply IH.
Qed.

Lemma set_property_keys (fields : list (string * value)) (key : string)
    (v : value) :
  fst <$> set_property fields key v = fst <$> fields.
Proof.
  induction fields as [|[k w] fields IH]; [done|].
  cbn [set_property]. destruct (decide (k = key)); [done|].
  rewrite !fmap_cons. by rewrite IH.
Qed.

(** ** [addCloudflareCustomRule] *)

Section cloudflare_properties.

Context (JSON_parse : string → exn + value).
Context (JSON_stringify : value → string).
Context (trim : string → string).
Context (escape_inner_quotes : string → string).
Context (fetch : fetch_request → exn + fetch_response).

Local Abbreviation parse := (parse_rule JSON_parse escape_inner_quotes).
Local Abbreviation wrap := (wrap_expression trim).
Local Abbreviation request := (cloudflare_request JSON_stringify).
Local Abbreviation execute :=
  (addCloudflareCustomRule_execute JSON_parse JSON_stringify trim
     escape_inner_quotes fetch).

Lemma parse_rule_not_string (rule : value) :
  (∀ t, rule ≠ VString t) → parse rule = inr rule.
Proof. intros Hns. destruct rule; try done. by destruct (Hns s). Qed.

Lemma unwrap_rule_no_type (rule : value) :
  has_property rule "type" = false → unwrap_rule rule = rule.
Proof.
  intros Hno. unfold unwrap_rule. rewrite Hno.
  by rewrite andb_false_r.
Qed.

(** X10.  A rule handed over as a JSON string is treated as the value it
    parses to, directly or after the repair of its inner quotes: the run is
    that of the parsed rule. *)
Theorem stringified_rule_is_parsed (env : cloudflare_env) (str : string)
    (rule : value) :
  JSON_parse str = inr rule
  ∨ ((∃ e, JSON_parse str = inl e)
     ∧ JSON_parse (escape_inner_quotes str) = inr rule) →
  (∀ t, rule ≠ VString t) →
  execute env (VString str) = execute env rule.
Proof.
  intros Hparse Hns. unfold addCloudflareCustomRule_execute.
  rewrite (parse_rule_not_string rule Hns).
  assert (parse (VString str) = inr rule) as ->; [|done].
  unfold parse_rule. destruct Hparse as [->|[[e ->] ->]]; done.
Qed.

(** X11.  A rule wrapped as [{ type: "object", value: rule }] is treated
    as [rule] itself. *)
Theorem wrapped_rule_is_unwrapped (env : cloudflare_env)
    (fields : list (string * value)) (rule : value) :
  own_property fields "type" = Some (VString "object") →
  own_property fields "value" = Some rule →
  (∀ t, rule ≠ VString t) →
  has_property rule "type" = false →
  execute env (VObject fields) = execute env rule.
Proof.
  intros Htype Hvalue Hns Hno. unfold addCloudflareCustomRule_execute.
  rewrite (parse_rule_not_string rule Hns). cbn [parse_rule].
  rewrite (unwrap_rule_no_type rule Hno).
  assert (unwrap_rule (VObject fields) = rule) as ->; [|done].
  unfold unwrap_rule, has_property, read_property.
  rewrite Htype, Hvalue. cbn [default].
  by rewrite !bool_decide_true by eauto.
Qed.

Lemma wrap_expression_string (fields : list (string * value))
    (expression : string) :
  own_property fields "expression" = Some (VString expression) →
  wrap (VObject fields)
  = inr (if startsWith_paren (trim expression)
            && endsWith_paren (trim expression)
         then VObject fields
         else VObject
                (set_property fields "expression"
                   (VString ("(" +:+ trim expression +:+ ")")))).
Proof.
  intros Hexpr. unfold wrap_expression, has_property. rewrite Hexpr.
  rewrite bool_decide_true by eauto. cbn [truthy typeof_object andb].
  by destruct (startsWith_paren _ && endsWith_paren _).
Qed.

(** X12.  For a rule object with a string [expression], sent with a token
    set: exactly one request goes out, and the rule in its body has the
    keys of the input in the same order, the same values except for
    [expression], and an [expression] that, trimmed, starts with ["("] and
    ends with [")"].  ([trim] leaves a string alone that starts with ["("]
    and ends with [")"].) *)
Theorem expression_is_sent_in_parentheses (env : cloudflare_env)
    (fields : list (string * value)) (expression token : string) :
  (∀ s, startsWith_paren s && endsWith_paren s = true → trim s = s) →
  own_property fields "type" = None →
  own_property fields "expression" = Some (VString expression) →
  CLOUDFLARE_API_TOKEN env = Some token →
  token ≠ "" →
  ∃ fields' expression',
    requests (execute env (VObject fields))
    = [request env token (VObject fields')]
    ∧ own_property fields' "expression" = Some (VString expression')
    ∧ startsWith_paren (trim expression') && endsWith_paren (trim expression')
      = true
    ∧ fst <$> fields' = fst <$> fields
    ∧ ∀ k, k ≠ "expression" → own_property fields' k = own_property fields k.
Proof.
  intros Htrim Htype Hexpr Htoken Hne.
  assert (requests (execute env (VObject fields))
          = [request env token
               (if startsWith_paren (trim expression)
                   && endsWith_paren (trim expression)
                then VObject fields
                else VObject
                       (set_property fields "expression"
                          (VString ("(" +:+ trim expression +:+ ")"))))])
    as Hreq.
  { unfold addCloudflareCustomRule_execute. cbn [parse_rule].
    rewrite unwrap_rule_no_type; last first.
    { unfold has_property. rewrite Htype. apply bool_decide_false.
      by intros [? ?]. }
    rewrite (wrap_expression_string _ _ Hexpr), Htoken.
    by destruct token. }
  destruct (startsWith_paren (trim expression)
            && endsWith_paren (trim expression)) eqn:Hw.
  - exists fields, expression. by repeat split.
  - exists (set_property fields "expression"
              (VString ("(" +:+ trim expression +:+ ")"))),
           ("(" +:+ trim expression +:+ ")").
    split; [done|]. split; [apply own_property_set_eq; eauto|]. split.
    + rewrite (Htrim _ (wrapped_in_parens _)). apply wrapped_in_parens.
    + split; [apply set_property_keys|].
      intros k Hk. by apply own_property_set_ne.
Qed.

(** X13.  Putting the expression in parentheses is idempotent: a rule that
    came out of the step goes through it unchanged. *)
Theorem wrap_expression_idempotent (rule rule' : value) :
  (∀ s, startsWith_paren s && endsWith_paren s = true → trim s = s) →
  wrap rule = inr rule' →
  wrap rule' = inr rule'.
Proof.
  intros Htrim Hwrap.
  destruct (truthy rule && typeof_object rule
            && has_property rule "expression") eqn:Hcond; last first.
  { unfold wrap_expression in Hwrap. rewrite Hcond in Hwrap.
    injection Hwrap as <-. unfold wrap_expression. by rewrite Hcond. }
  destruct rule as [| | | | | |fields];
    try (unfold wrap_expression in Hwrap; rewrite Hcond in Hwrap;
         by injection Hwrap as <-; unfold wrap_expression; rewrite Hcond).
  destruct (own_property fields "expression") as [[| | | |expression| |]|]
    eqn:Hexpr;
    try (unfold wrap_expression in Hwrap; rewrite Hcond, Hexpr in Hwrap;
         discriminate).
  rewrite (wrap_expression_string _ _ Hexpr) in Hwrap.
  injection Hwrap as <-.
  destruct (startsWith_paren (trim expression)
            && endsWith_paren (trim expression)) eqn:Hw.
  - rewrite (wrap_expression_string _ _ Hexpr). by rewrite Hw.
  - rewrite (wrap_expression_string _ ("(" +:+ trim expression +:+ ")"));
      [|apply own_property_set_eq; eauto].
    rewrite (Htrim _ (wrapped_in_parens _)). by rewrite wrapped_in_parens.
Qed.

Lemma wrap_expression_throws (rule : value) (e : exn) :
  wrap rule = inl e ↔
  ∃ fields v,
    rule = VObject fields
    ∧ own_property fields "expression" = Some v
    ∧ (∀ s, v ≠ VString s)
    ∧ e = trim_error v.
Proof.
  split.
  - intros Hwrap. unfold wrap_expression in Hwrap.
    destruct (truthy rule && typeof_object rule
              && has_property rule "expression") eqn:Hcond; [|done].
    destruct rule as [| | | | | |fields]; try done.
    exists fields.
    apply andb_true_iff in Hcond as [_ Hhas].
    apply bool_decide_eq_true in Hhas as [v Hv]. exists v.
    rewrite Hv in Hwrap. split; [done|]. split; [done|].
    destruct v; try (injection Hwrap as <-; by split);
      by destruct (negb _).
  - intros (fields & v & -> & Hv & Hns & ->).
    unfold wrap_expression, has_property. rewrite Hv.
    rewrite bool_decide_true by eauto. cbn [truthy typeof_object andb].
    destruct v; try done. by destruct (Hns s).
Qed.

(** The error of calling [trim] on a value that is no string is a
    [TypeError]; its message names the property for [null] and
    [undefined]. *)
Lemma trim_error_cases (v : value) :
  trim_error v
  = match v with
    | VNull => TypeError "Cannot read properties of null (reading 'trim')"
    | VUndefined =>
        TypeError "Cannot read properties of undefined (reading 'trim')"
    | _ => TypeError "rule.expression.trim is not a function"
    end.
Proof. by destruct v. Qed.

(** X14.  A rule that, once parsed and unwrapped, is an object whose
    [expression] is not a string makes the promise of the tool reject,
    whether a token is set or not: [trim] cannot be called on that value.
    The error is the [TypeError] of that call: for [null] and [undefined]
    that of reading [trim], for any other value that of calling what is no
    function.  Whenever the promise is rejected, no request has been
    sent. *)
Theorem bad_expression_rejects_before_any_request (env : cloudflare_env)
    (rule : value) :
  (∀ parsed fields v,
     parse rule = inr parsed →
     unwrap_rule parsed = VObject fields →
     own_property fields "expression" = Some v →
     (∀ s, v ≠ VString s) →
     settled (execute env rule)
     = rejected
         match v with
         | VNull =>
             TypeError "Cannot read properties of null (reading 'trim')"
         | VUndefined =>
             TypeError "Cannot read properties of undefined (reading 'trim')"
         | _ => TypeError "rule.expression.trim is not a function"
         end)
  ∧ (∀ e, settled (execute env rule) = rejected e →
       requests (execute env rule) = []).
Proof.
  unfold addCloudflareCustomRule_execute. split.
  - intros parsed fields v -> Hfields Hv Hns.
    assert (wrap (unwrap_rule parsed) = inl (trim_error v)) as ->.
    { apply wrap_expression_throws. by exists fields, v. }
    by rewrite trim_error_cases.
  - intros e. destruct (parse rule) as [message|parsed]; [done|].
    destruct (wrap (unwrap_rule parsed)) as [e'|rule']; [done|].
    destruct (CLOUDFLARE_API_TOKEN env) as [[|a token]|]; done.
Qed.

(** X15.  At most one request is sent, and none without a token: a request
    is a [POST] that carries the configured token as bearer. *)
Theorem request_needs_token (env : cloudflare_env) (rule : value) :
  length (requests (execute env rule)) ≤ 1
  ∧ ∀ q, q ∈ requests (execute env rule) →
      ∃ token,
        CLOUDFLARE_API_TOKEN env = Some token
        ∧ token ≠ ""
        ∧ req_method q = "POST"
        ∧ ("Authorization", "Bearer " +:+ token) ∈ req_headers q.
Proof.
  unfold addCloudflareCustomRule_execute.
  destruct (parse rule) as [message|parsed];
    [split; [simpl; lia|by intros q ?%elem_of_nil]|].
  destruct (wrap (unwrap_rule parsed)) as [e'|rule'];
    [split; [simpl; lia|by intros q ?%elem_of_nil]|].
  destruct (CLOUDFLARE_API_TOKEN env) as [[|a token]|];
    try (split; [simpl; lia|by intros q ?%elem_of_nil]).
  split; [simpl; lia|]. intros q ->%list_elem_of_singleton.
  exists (String a token). repeat split; [done|]. simpl.
  apply elem_of_cons. right. by left.
Qed.

End cloudflare_properties.

(** ** [generateImage] *)

Section generateImage_properties.

Context (parseInt10 : string → number).
Context (atob : string → exn + list N).

Local Abbreviation steps_used := (validSteps parseInt10).
Local Abbreviation execute := (generateImage_execute parseInt10 atob).

(** X16.  Unless [steps] is a string, the number of steps handed to the
    model is a finite number between 1 and 8, whatever the argument is
    (missing, zero, negative, huge, infinite or [NaN]); a number that is
    already between 1 and 8 is kept. *)
Theorem steps_are_clamped (steps : steps_arg) :
  (∀ s, steps ≠ steps_string s) →
  ∃ q,
    steps_used steps = Finite q
    ∧ (1 <= q)%Q ∧ (q <= 8)%Q
    ∧ ∀ p, steps = steps_number (Finite p) →
        (1 <= p)%Q → (p <= 8)%Q → (q == p)%Q.
Proof.
  intros Hns. unfold validSteps.
  destruct steps as [|s|[| | |p]]; [| by destruct (Hns s) | | | |].
  - exists 4%Q. by repeat split.
  - exists 4%Q. by repeat split.
  - exists 1%Q. by repeat split.
  - exists 8%Q. by repeat split.
  - cbn [number_falsy]. destruct (Qeq_bool p 0) eqn:Hzero.
    + exists 4%Q. repeat split; try done.
      intros p' [= <-] Hge _. apply Qeq_bool_iff in Hzero.
      rewrite Hzero in Hge. by apply Qle_bool_iff in Hge.
    + cbn [Math_max]. destruct (Qle_bool p 1) eqn:Hle1.
      * exists 1%Q. repeat split; try done.
        intros p' [= <-] Hge _. apply Qle_bool_iff in Hle1.
        by apply Qle_antisym.
      * cbn [Math_min]. destruct (Qle_bool p 8) eqn:Hle8.
        -- exists p. apply Qle_bool_iff in Hle8.
           assert (¬ (p <= 1)%Q) as Hgt
             by (intros H; apply Qle_bool_iff in H; congruence).
           split; [done|]. split.
           { apply Qnot_le_lt in Hgt. by apply Qlt_le_weak. }
           split; [done|]. intros p' [= <-] _ _. apply Qeq_refl.
        -- exists 8%Q. split; [done|]. split; [done|]. split; [done|].
           intros p' [= <-] _ Hle. apply Qle_bool_iff in Hle. congruence.
Qed.

(** X17.  [NaN] steps reach the model in one case only: [steps] is a
    string in which [parseInt] finds no number. *)
Theorem steps_NaN_only_from_string (steps : steps_arg) :
  steps_used steps = NaN ↔ ∃ s, steps = steps_string s ∧ parseInt10 s = NaN.
Proof.
  assert (∀ n, Math_min (Math_max n (Finite 1)) (Finite 8) = NaN ↔ n = NaN)
    as Hclamp.
  { intros [| | |p]; simpl; try done.
    destruct (Qle_bool p 1); simpl; [done|]. by destruct (Qle_bool p 8). }
  unfold validSteps. rewrite Hclamp. split.
  - destruct steps as [|s|n]; [done|by exists s|].
    by destruct (number_falsy n) eqn:Hf; [|intros ->].
  - by intros (s & -> & ->).
Qed.

Lemma image_failed_not_success (error : exn) (prompt key : string) :
  image_failed error ≠ image_success prompt key.
Proof. unfold image_failed, image_success. by intros [=]. Qed.

Lemma image_success_key (prompt key key' : string) :
  image_success prompt key = image_success prompt key' → key = key'.
Proof.
  unfold image_success. intros H.
  repeat apply string_app_inj_l in H. done.
Qed.

(** X18.  The tool announces an image only when the image has been stored:
    an answer that gives a link means that the model was called once, with
    the prompt and the clamped steps, that one object was put in the bucket,
    successfully, and that the link is the address of that object. *)
Theorem image_announced_only_if_stored (agent : option agent_env) (now : Z)
    (randomString prompt : string) (steps : steps_arg) (key : string) :
  let r := execute agent now randomString prompt steps in
  image_answer r = image_success prompt key →
  key = image_key now randomString
  ∧ ∃ env put request,
      agent = Some env
      ∧ bucket_puts r = [put]
      ∧ put_key put = key
      ∧ PUBLIC_BUCKET_put env put = inr tt
      ∧ ai_calls r = [request]
      ∧ ai_prompt request = prompt
      ∧ ai_steps request = steps_used steps.
Proof.
  intros r. subst r. unfold generateImage_execute.
  destruct agent as [env|]; [|by intros ?%image_failed_not_success].
  destruct (AI_run env _) as [error|[[|a base64Data]|]] eqn:Hrun;
    try by intros ?%image_failed_not_success.
  destruct (atob _) as [error|bytes];
    [by intros ?%image_failed_not_success|].
  destruct (PUBLIC_BUCKET_put env _) as [error|[]] eqn:Hput;
    [by intros ?%image_failed_not_success|].
  cbn [image_answer ai_calls bucket_puts].
  intros <-%image_success_key. split; [done|].
  eexists env, _, _. by repeat split.
Qed.

End generateImage_properties.

(** ** [searchPokemon] *)

Section searchPokemon_properties.

Context (Number_toString : Z → string).

Lemma join_values_string_cons (separator n : string) (y : value)
    (rest : list value) :
  join_values Number_toString separator (VString n :: y :: rest)
  = match join_values Number_toString separator (y :: rest) with
    | inl e => inl e
    | inr sr => inr (n +:+ separator +:+ sr)
    end.
Proof. done. Qed.

Lemma join_values_strings (separator : string) (names : list string) :
  join_values Number_toString separator (VString <$> names)
  = inr (String.concat separator names).
Proof.
  induction names as [|n names IH]; [done|].
  destruct names as [|n' names]; [done|].
  rewrite fmap_cons. rewrite fmap_cons in IH.
  rewrite fmap_cons. rewrite join_values_string_cons.
  rewrite <-fmap_cons. rewrite <-fmap_cons in IH. by rewrite IH.
Qed.

(** X19.  The line of types (or abilities) of the summary: for a list of
    entries [{ key: { name } }] with string names it is the names joined by
    [", "]; it is ["N/A"] when the list is missing, empty, or joins to the
    empty string. *)
Theorem names_line_of_entries (key : string) (items : list value)
    (names : list string) :
  Forall2
    (λ t n, ∃ inner, read_property t key = inr inner
                     ∧ read_property inner "name" = inr (VString n))
    items names →
  names_line Number_toString key (VArray items)
  = inr (if bool_decide (String.concat ", " names = "") then "N/A"
         else String.concat ", " names)
  ∧ names_line Number_toString key VUndefined = inr "N/A"
  ∧ names_line Number_toString key (VArray []) = inr "N/A".
Proof.
  intros Hitems. split; [|done].
  assert (map_names key items = inr (VString <$> names)) as Hmap.
  { induction Hitems as [|t n items names (inner & Ht & Hn) _ IH]; [done|].
    cbn [map_names]. by rewrite Ht, Hn, IH. }
  unfold names_line. rewrite Hmap, join_values_strings.
  by destruct (String.concat ", " names).
Qed.

(** X21.  Whatever the service answers, the tool answers with a text: its
    promise is never rejected.  It sends at most one request, a [GET] of the
    address of the encoded name. *)
Theorem searchPokemon_always_answers_with_text
    (encodeURIComponent : string → exn + string)
    (fetch : fetch_request → exn + fetch_response) (nameOrId : string) :
  let r :=
    searchPokemon_execute Number_toString encodeURIComponent fetch nameOrId in
  (∃ s, settled r = fulfilled (VString s))
  ∧ length (requests r) ≤ 1
  ∧ ∀ q, q ∈ requests r →
      req_method q = "GET"
      ∧ ∃ encoded,
          encodeURIComponent nameOrId = inr encoded
          ∧ req_url q = "https://pokeapi.co/api/v2/pokemon/" +:+ encoded.
Proof.
  intros r. subst r. unfold searchPokemon_execute.
  destruct (encodeURIComponent nameOrId) as [error|encoded].
  { split; [by eexists|]. split; [simpl; lia|]. by intros q ?%elem_of_nil. }
  cbn [settled requests]. split; [|split; [simpl; lia|]].
  - destruct (fetch _) as [error|res]; [by eexists|].
    destruct (ok res); cbn [negb]; [|by eexists].
    destruct (response_json res) as [error|body]; [by eexists|].
    destruct (pokemon_summary _ body); by eexists.
  - intros q ->%list_elem_of_singleton. split; [done|]. by exists encoded.
Qed.

(** X22.  The summary of a well-formed answer: name, numeric id, height
    and weight, the types and the abilities joined by [", "] (or ["N/A"]),
    and a last line with the sprite when the answer has one. *)
Theorem pokemon_summary_of_record (fields sprite_fields : list (string * value))
    (name url : string) (ident height weight : Z)
    (types abilities : list value) (type_names ability_names : list string) :
  own_property fields "name" = Some (VString name) →
  own_property fields "id" = Some (VNumber ident) →
  own_property fields "height" = Some (VNumber height) →
  own_property fields "weight" = Some (VNumber weight) →
  own_property fields "types" = Some (VArray types) →
  own_property fields "abilities" = Some (VArray abilities) →
  own_property fields "sprites" = Some (VObject sprite_fields) →
  own_property sprite_fields "front_default" = Some (VString url) →
  Forall2
    (λ t n, ∃ inner, read_property t "type" = inr inner
                     ∧ read_property inner "name" = inr (VString n))
    types type_names →
  Forall2
    (λ t n, ∃ inner, read_property t "ability" = inr inner
                     ∧ read_property inner "name" = inr (VString n))
    abilities ability_names →
  let or_NA (s : string) := if bool_decide (s = "") then "N/A" else s in
  pokemon_summary Number_toString (VObject fields)
  = inr ("Pokémon: " +:+ name +:+ " (ID: " +:+ Number_toString ident +:+ ")"
         +:+ LF +:+ "Height: " +:+ Number_toString height
         +:+ LF +:+ "Weight: " +:+ Number_toString weight
         +:+ LF +:+ "Types: " +:+ or_NA (String.concat ", " type_names)
         +:+ LF +:+ "Abilities: " +:+ or_NA (String.concat ", " ability_names)
         +:+ (if bool_decide (url = "") then ""
              else LF +:+ "Sprite: " +:+ url)).
Proof.
  intros Hname Hid Hheight Hweight Htypes Habilities Hsprites Hfront
    Htype_names Hability_names or_NA.
  destruct (names_line_of_entries "type" _ _ Htype_names) as [Ht _].
  destruct (names_line_of_entries "ability" _ _ Hability_names) as [Ha _].
  unfold pokemon_summary, read_property.
  rewrite Hname, Hid, Hheight, Hweight, Htypes, Habilities, Hsprites.
  cbn [default from_option Datatypes.id mbind throwing_bind].
  rewrite Ht, Ha.
  cbn [mbind throwing_bind]. rewrite Hfront.
  cbn [default from_option Datatypes.id mbind throwing_bind ToString].
  destruct url as [|a url]; cbn [truthy].
  - rewrite (bool_decide_true ("" = "")) by done.
    subst or_NA. cbn beta. by rewrite !string_app_empty_r.
  - rewrite (bool_decide_false (String a url = "")) by done.
    cbn [mbind throwing_bind ToString].
    subst or_NA. cbn beta. f_equal. by rewrite !string_app_assoc.
Qed.

End searchPokemon_properties.

(** ** [analyzeToolCallingMessages] and the last user message *)

Section analysis_properties.

Context (toLowerCase : string → string).
Context (remove_image_words : string → string).
Context (trim : string → string).

Local Abbreviation analyze :=
  (analyzeToolCallingMessages toLowerCase remove_image_words trim).
Local Abbreviation analyze_message :=
  (analyze_user_message toLowerCase remove_image_words trim).
Local Abbreviation analyze_below :=
  (analyze_from toLowerCase remove_image_words trim).

Lemma analyze_from_app (l k : list Message) (n : nat) :
  n ≤ length l → analyze_below (l ++ k) n = analyze_below l n.
Proof.
  induction n as [|n IH]; intros Hn; [done|]. cbn [analyze_from].
  rewrite lookup_app_l by lia.
  destruct (l !! n) as [m|]; [|done].
  destruct (is_user m); [done|]. apply IH. lia.
Qed.

(** X20.  The analysis looks at one message only, the one that the agent
    calls the last user message (the last message with role [user]); when
    there is none it prints its first line and nothing else. *)
Theorem analysis_reads_last_user_message (messages : list Message) :
  analyze messages
  = line_analyzing
    :: from_option analyze_message [] (lastUserMessage messages).
Proof.
  unfold analyzeToolCallingMessages, lastUserMessage. f_equal.
  induction messages as [|m messages IH] using rev_ind; [done|].
  rewrite length_app, Nat.add_1_r. cbn [analyze_from].
  rewrite list_lookup_middle by done. rewrite filter_app.
  destruct (is_user m) eqn:Hm.
  - rewrite filter_cons_True by done. rewrite filter_nil.
    by rewrite last_snoc.
  - rewrite filter_cons_False by (by rewrite Hm). rewrite filter_nil.
    rewrite app_nil_r, analyze_from_app by done. apply IH.
Qed.

End analysis_properties.

(** * Instances of the further statements *)

Lemma calls_only_for_approved_parts_witness :
  ∃ step c f core,
    scenario_parts !! 1
    = Some (ToolInvocationUIPart
              (result step c (VString (YES scenario_APPROVAL))))
    ∧ scenario_executions (CoreMessage := Message) !! toolName c
      = Some (callable f)
    ∧ (inr scenario_messages : exn + list Message) = inr core
    ∧ {| inv_toolName := "getWeatherInformation";
         inv_args := VObject [("city", VString "Lima")];
         inv_options :=
           {| ctx_messages := scenario_messages;
              ctx_toolCallId := "call_1" |} |}
      = {| inv_toolName := toolName c; inv_args := args c;
           inv_options := options_for core c |}.
Proof.
  exact (calls_only_for_approved_parts scenario_APPROVAL (λ ms, inr ms) []
    scenario_messages scenario_executions [2; 1] scenario_assistant
    scenario_parts 1 _ eq_refl eq_refl (list_elem_of_here _ _)).
Defined.

Lemma calls_in_part_order_witness :
  let r :=
    processToolCalls scenario_APPROVAL (λ ms, inr ms) [] scenario_messages
      scenario_executions [2; 1] in
  let r' :=
    processToolCalls scenario_APPROVAL (λ ms, inr ms) [] scenario_messages
      scenario_executions [1; 2] in
  run_calls r = run_calls r' ∧ StronglySorted lt (fst <$> run_calls r).
Proof.
  exact (calls_in_part_order scenario_APPROVAL (λ ms, inr ms) []
    scenario_messages scenario_executions [2; 1] [1; 2] scenario_assistant
    scenario_parts eq_refl eq_refl).
Defined.

Lemma writes_in_settling_order_witness :
  let r :=
    processToolCalls scenario_APPROVAL (λ ms, inr ms) [] scenario_messages
      scenario_executions [2; 1; 2] in
  fst <$> run_written r = [3; 6; 2; 1].
Proof.
  intros r. subst r.
  rewrite (proj1 (writes_in_settling_order scenario_APPROVAL (λ ms, inr ms) []
    scenario_messages scenario_executions [2; 1; 2] scenario_assistant
    scenario_parts eq_refl eq_refl)).
  reflexivity.
Defined.

Lemma denial_published_immediately_witness :
  let r :=
    processToolCalls scenario_APPROVAL (λ ms, inr ms) [] scenario_messages
      scenario_executions [] in
  let d :=
    tool_result "call_3"
      (VString "Error: User denied access to tool execution") in
  completed r = Pending ∧ tagged 3 (run_written r) = [d]
  ∧ d ∈ dataStream_after r.
Proof.
  split; [reflexivity|].
  apply (denial_published_immediately scenario_APPROVAL (λ ms, inr ms) []
    scenario_messages scenario_executions [] scenario_assistant
    scenario_parts 3 None (tool_call "call_3" "getWeatherInformation"));
    try reflexivity.
  - vm_compute. discriminate.
  - vm_compute. eexists. reflexivity.
Defined.

Lemma unsettled_promise_keeps_pass_pending_witness :
  let r :=
    processToolCalls scenario_APPROVAL (λ ms, inr ms) [] scenario_messages
      scenario_executions [2] in
  (1 ∉ [2])
  ∧ completed r = Pending
  ∧ returned_parts r = None
  ∧ tagged 1 (run_calls r)
    = [ {| inv_toolName := "getWeatherInformation";
           inv_args := VObject [("city", VString "Lima")];
           inv_options :=
             {| ctx_messages := scenario_messages;
                ctx_toolCallId := "call_1" |} |} ]
  ∧ tagged 1 (run_written r) = [].
Proof.
  assert (1 ∉ [2]) as Hnot
    by (intros H; apply list_elem_of_singleton in H; discriminate).
  split; [exact Hnot|].
  exact (unsettled_promise_keeps_pass_pending scenario_APPROVAL
    (λ ms, inr ms) [] scenario_messages scenario_executions [2]
    scenario_assistant scenario_parts 1 None
    (tool_call "call_1" "getWeatherInformation")
    (fixed_resolver "Sunny in Lima") scenario_messages
    (fulfilled (VString "Sunny in Lima"))
    eq_refl eq_refl eq_refl eq_refl eq_refl eq_refl Hnot).
Defined.

Lemma second_pass_is_identity_witness :
  let r1 :=
    processToolCalls scenario_APPROVAL (λ ms, inr ms) [] scenario_messages
      scenario_executions [2; 1] in
  ∃ out1,
    completed r1 = Fulfilled out1
    ∧ processToolCalls scenario_APPROVAL (λ ms, inr ms) (dataStream_after r1)
        out1 scenario_executions [0]
      = {| completed := Fulfilled out1;
           dataStream_after := dataStream_after r1;
           run_calls := []; run_written := [] |}.
Proof.
  apply (second_pass_is_identity scenario_APPROVAL (λ ms, inr ms) []
    scenario_messages scenario_executions [2; 1] [0] scenario_assistant
    scenario_parts eq_refl eq_refl eq_refl).
  repeat constructor.
Defined.

Lemma write_count_witness :
  length (dataStream_after
            (processToolCalls scenario_APPROVAL (λ ms, inr ms) []
               scenario_messages scenario_executions [2; 1]))
  = 0 + length (filter
                  (λ p, to_rewrite scenario_APPROVAL
                          (CoreMessage := Message) scenario_executions p
                        = true)
                  scenario_parts).
Proof.
  exact (write_count scenario_APPROVAL (λ ms, inr ms) [] scenario_messages
    scenario_executions [2; 1] scenario_assistant scenario_parts
    eq_refl eq_refl eq_refl).
Defined.

Lemma approved_weather_call_gets_report_witness :
  let executions :=
    tools_executions (CoreMessage := Message) pretty scenario_builtin in
  let r :=
    processToolCalls scenario_APPROVAL (λ ms, inr ms) [] scenario_messages
      executions [1] in
  let report := VString (weather_report "Lima") in
  settles scenario_APPROVAL (λ ms, inr ms) scenario_messages executions
    scenario_parts [1]
  ∧ ∃ ps',
      completed r
      = Fulfilled (slice_0_m1 scenario_messages
                   ++ [with_parts scenario_assistant ps'])
      ∧ returned_parts r = Some ps'
      ∧ ps' !! 1
        = Some (ToolInvocationUIPart
                  (result None (tool_call "call_1" "getWeatherInformation")
                     report))
      ∧ tagged 1 (run_written r) = [tool_result "call_1" report].
Proof.
  split; [reflexivity|].
  exact (approved_weather_call_gets_report scenario_APPROVAL (λ ms, inr ms)
    pretty scenario_builtin [] scenario_messages
    [1] scenario_assistant scenario_parts 1 None
    (tool_call "call_1" "getWeatherInformation")
    [("city", VString "Lima")] "Lima" scenario_messages
    eq_refl eq_refl eq_refl eq_refl eq_refl eq_refl eq_refl eq_refl).
Defined.

Lemma stringified_rule_is_parsed_witness :
  let JSON_parse (str : string) : exn + value :=
    if bool_decide (str = "{}") then inr (VObject [])
    else inl (JsError "SyntaxError" "Unexpected token") in
  let fetch (_ : fetch_request) : exn + fetch_response :=
    inl (TypeError "fetch failed") in
  let env :=
    {| CLOUDFLARE_API_TOKEN := Some "token"; CLOUDFLARE_ZONE_ID := None;
       CLOUDFLARE_RULESET_ID := None |} in
  addCloudflareCustomRule_execute JSON_parse (λ _, "{}") (λ s, s) (λ s, s)
    fetch env (VString "{}")
  = addCloudflareCustomRule_execute JSON_parse (λ _, "{}") (λ s, s) (λ s, s)
      fetch env (VObject []).
Proof.
  intros JSON_parse fetch env.
  apply (stringified_rule_is_parsed JSON_parse (λ _, "{}") (λ s, s) (λ s, s)
           fetch env "{}" (VObject [])).
  - left. reflexivity.
  - intros t. discriminate.
Defined.

Lemma wrapped_rule_is_unwrapped_witness :
  let fetch (_ : fetch_request) : exn + fetch_response :=
    inl (TypeError "fetch failed") in
  let env :=
    {| CLOUDFLARE_API_TOKEN := Some "token"; CLOUDFLARE_ZONE_ID := None;
       CLOUDFLARE_RULESET_ID := None |} in
  let rule :=
    VObject [("action", VString "block");
             ("description", VString "bad bot");
             ("expression", VString "http.user_agent eq BadBot")] in
  addCloudflareCustomRule_execute (λ _, inr VNull) (λ _, "{}") (λ s, s)
    (λ s, s) fetch env
    (VObject [("type", VString "object"); ("value", rule)])
  = addCloudflareCustomRule_execute (λ _, inr VNull) (λ _, "{}") (λ s, s)
      (λ s, s) fetch env rule.
Proof.
  intros fetch env rule.
  apply (wrapped_rule_is_unwrapped (λ _, inr VNull) (λ _, "{}") (λ s, s)
           (λ s, s) fetch env); try reflexivity.
  intros t. discriminate.
Defined.

Lemma expression_is_sent_in_parentheses_witness :
  let fetch (_ : fetch_request) : exn + fetch_response :=
    inl (TypeError "fetch failed") in
  let env :=
    {| CLOUDFLARE_API_TOKEN := Some "token"; CLOUDFLARE_ZONE_ID := None;
       CLOUDFLARE_RULESET_ID := None |} in
  let fields :=
    [("action", VString "block");
     ("description", VString "bad bot");
     ("expression", VString "http.user_agent eq BadBot")] in
  ∃ fields' expression',
    requests
      (addCloudflareCustomRule_execute (λ _, inr VNull) (λ _, "{}")
         (λ s, s) (λ s, s) fetch env (VObject fields))
    = [cloudflare_request (λ _, "{}") env "token" (VObject fields')]
    ∧ own_property fields' "expression" = Some (VString expression')
    ∧ startsWith_paren expression' && endsWith_paren expression' = true
    ∧ fst <$> fields' = fst <$> fields
    ∧ ∀ k, k ≠ "expression" → own_property fields' k = own_property fields k.
Proof.
  intros fetch env fields.
  apply (expression_is_sent_in_parentheses (λ _, inr VNull) (λ _, "{}")
           (λ s, s) (λ s, s) fetch env fields
           "http.user_agent eq BadBot" "token");
    try reflexivity.
  discriminate.
Defined.

Lemma wrap_expression_idempotent_witness :
  let wrapped :=
    VObject [("action", VString "block");
             ("expression", VString "(http.user_agent eq BadBot)")] in
  wrap_expression (λ s, s) wrapped = inr wrapped.
Proof.
  intros wrapped.
  apply (wrap_expression_idempotent (λ s, s)
           (VObject [("action", VString "block");
                     ("expression", VString "http.user_agent eq BadBot")]));
    reflexivity.
Defined.

Lemma bad_expression_rejects_before_any_request_witness :
  let fetch (_ : fetch_request) : exn + fetch_response :=
    inl (TypeError "fetch failed") in
  let env :=
    {| CLOUDFLARE_API_TOKEN := Some "token"; CLOUDFLARE_ZONE_ID := None;
       CLOUDFLARE_RULESET_ID := None |} in
  let run :=
    addCloudflareCustomRule_execute (λ _, inr VNull) (λ _, "{}") (λ s, s)
      (λ s, s) fetch env
      (VObject [("action", VString "block"); ("expression", VNull)]) in
  settled run
  = rejected (TypeError "Cannot read properties of null (reading 'trim')")
  ∧ requests run = [].
Proof.
  intros fetch env run.
  destruct (bad_expression_rejects_before_any_request (λ _, inr VNull)
              (λ _, "{}") (λ s, s) (λ s, s) fetch env
              (VObject [("action", VString "block"); ("expression", VNull)]))
    as [Hrejects Hnone].
  assert (settled run
          = rejected
              (TypeError "Cannot read properties of null (reading 'trim')"))
    as Hrejected.
  { apply (Hrejects _ _ VNull eq_refl eq_refl eq_refl).
    intros s. discriminate. }
  split; [exact Hrejected|]. exact (Hnone _ Hrejected).
Defined.

Lemma steps_are_clamped_witness :
  ∃ q,
    validSteps (λ _, NaN) (steps_number (Finite 20)) = Finite q
    ∧ (1 <= q)%Q ∧ (q <= 8)%Q
    ∧ ∀ p, steps_number (Finite 20) = steps_number (Finite p) →
        (1 <= p)%Q → (p <= 8)%Q → (q == p)%Q.
Proof.
  apply (steps_are_clamped (λ _, NaN) (steps_number (Finite 20))).
  intros s. discriminate.
Defined.

Lemma image_announced_only_if_stored_witness :
  let env :=
    {| AI_run := λ _, inr (Some "aGk="); PUBLIC_BUCKET_put := λ _, inr tt |} in
  let atob (_ : string) : exn + list N := inr [104%N; 105%N] in
  let r :=
    generateImage_execute (λ _, NaN) atob (Some env) 1747129509395 "m29mub"
      "a red fox" steps_undefined in
  let key := "ai-generated/1747129509395-m29mub.jpg" in
  image_answer r = image_success "a red fox" key
  ∧ key = image_key 1747129509395 "m29mub"
  ∧ ∃ env' put request,
      Some env = Some env'
      ∧ bucket_puts r = [put]
      ∧ put_key put = key
      ∧ PUBLIC_BUCKET_put env' put = inr tt
      ∧ ai_calls r = [request]
      ∧ ai_prompt request = "a red fox"
      ∧ ai_steps request = validSteps (λ _, NaN) steps_undefined.
Proof.
  intros env atob r key.
  assert (image_answer r = image_success "a red fox" key) as Hanswer
    by reflexivity.
  split; [exact Hanswer|].
  exact (image_announced_only_if_stored (λ _, NaN) atob (Some env)
           1747129509395 "m29mub" "a red fox" steps_undefined key Hanswer).
Defined.

Lemma names_line_of_entries_witness :
  let entry (n : string) :=
    VObject [("slot", VNumber 1);
             ("type", VObject [("name", VString n); ("url", VString "")])] in
  names_line pretty "type" (VArray [entry "grass"; entry "poison"])
  = inr "grass, poison".
Proof.
  intros entry.
  refine (proj1 (names_line_of_entries pretty "type"
                   [entry "grass"; entry "poison"] ["grass"; "poison"] _)).
  repeat constructor; eexists; split; reflexivity.
Defined.

Lemma pokemon_summary_of_record_witness :
  let entry (key n : string) :=
    VObject [(key, VObject [("name", VString n)])] in
  let body :=
    VObject [("name", VString "pikachu"); ("id", VNumber 25);
             ("height", VNumber 4); ("weight", VNumber 60);
             ("types", VArray [entry "type" "electric"]);
             ("abilities",
              VArray [entry "ability" "static";
                      entry "ability" "lightning-rod"]);
             ("sprites", VObject [("front_default", VString "25.png")])] in
  pokemon_summary pretty body
  = inr ("Pokémon: pikachu (ID: 25)" +:+ LF +:+ "Height: 4" +:+ LF
         +:+ "Weight: 60" +:+ LF +:+ "Types: electric" +:+ LF
         +:+ "Abilities: static, lightning-rod" +:+ LF
         +:+ "Sprite: 25.png").
Proof.
  intros entry body. subst body.
  rewrite (pokemon_summary_of_record pretty _
             [("front_default", VString "25.png")] "pikachu" "25.png"
             25 4 60 [entry "type" "electric"]
             [entry "ability" "static"; entry "ability" "lightning-rod"]
             ["electric"] ["static"; "lightning-rod"]);
    try reflexivity.
  - repeat constructor; eexists; split; reflexivity.
  - repeat constructor; eexists; split; reflexivity.
Defined.
